(** * Abydos: Sift4 Extended distance and four token-set formulas

    A shallow embedding of

    - [abydos/distance/_sift4_extended.py] ([Sift4Extended.dist_abs]),
    - [abydos/distance/_doolittle.py] ([Doolittle.sim]),
    - [abydos/distance/_dennis.py] ([Dennis.sim_score]),
    - [abydos/distance/_pearson_iii.py] ([PearsonIII.corr]),
    - [abydos/distance/_tulloss_s.py] ([TullossS.sim]),
    - [abydos/distance/_dennis.py] ([Dennis.corr], [Dennis.sim]),
    - [abydos/phonetic/_hybrid.py] (the recoding step of
      [MetaSoundex.metasoundex]),
    - [abydos/tokenizer/_sonoripy.py] ([SonoriPyTokenizer.tokenize]),

    together with the properties of these functions that the specification
    states.  The semantics is that of Python 3.  Python integers are [Z];
    Python strings are [string], indexed through their list of characters;
    a Python exception is an explicit outcome of the embedded function.
    Python floats are idealised as real numbers ([R]): rounding is not
    modelled, the tests and exceptions of the arithmetic are. *)

From Stdlib Require Import ZArith List String Ascii Bool Lia Reals Lra.
Import ListNotations.
Open Scope Z_scope.

(** ** Python outcomes *)

(** The exceptions that the embedded code can raise. *)
Inductive exn : Type :=
| IndexError
| ZeroDivisionError
| ValueError.

(** What a call of an embedded function can do: return a value, raise, or
    (for a loop run with a bounded number of iterations) use up its
    iterations. *)
Inductive outcome (A : Type) : Type :=
| Returned (v : A)
| Raised (e : exn)
| OutOfFuel.

Arguments Returned {A} v.
Arguments Raised {A} e.
Arguments OutOfFuel {A}.

(** [len(s)] *)
Definition len {A : Type} (s : list A) : Z := Z.of_nat (List.length s).

(** [s[i]] on a Python sequence: a negative index counts from the end, an
    index outside [-len(s) .. len(s)-1] raises [IndexError] ([None]). *)
Definition py_getitem {A : Type} (s : list A) (i : Z) : option A :=
  if 0 <=? i then nth_error s (Z.to_nat i)
  else if - len s <=? i then nth_error s (Z.to_nat (len s + i))
  else None.

(** [round(x)] on a Python [int] is the same [int]. *)
Definition round (x : Z) : Z := x.

(** ** Sift4 Extended *)

Module Sift4Extended.

(** An element of [offset_arr]:
    [{'src_cur': .., 'tar_cur': .., 'trans': ..}]. *)
Record ofs : Type := mk_ofs {
  o_src_cur : Z;
  o_tar_cur : Z;
  o_trans : bool
}.

(** The local variables of [dist_abs] that live across loop iterations. *)
Record state : Type := mk_state {
  src_cur : Z;
  tar_cur : Z;
  lcss : Z;
  local_cs : Z;
  trans : Z;
  offset_arr : list ofs
}.

(** How one iteration of the [while] loop ends: it falls through to the next
    test of the loop condition, it executes [return], or it raises. *)
Inductive step_result : Type :=
| Continue (st : state)
| Exit (v : Z)
| Fail (e : exn).

(** How the [while] loop ends. *)
Inductive loop_result : Type :=
| Finished (st : state)
| Exited (v : Z)
| Failed (e : exn)
| Exhausted.

(** The inner loop [while i < len(offset_arr)] of a matching step, for the
    matched pair [(sc, tc)].  The argument [arr] is the part of [offset_arr]
    from index [i] on; the entries before [i] are the ones already kept.
    [del offset_arr[i]] drops the head and leaves [i] in place, [i += 1]
    keeps the head, and [break] leaves the rest untouched.  The result is
    [(is_trans, trans, offset_arr)]. *)
Fixpoint scan_offsets (sc tc tr : Z) (arr : list ofs) : bool * Z * list ofs :=
  match arr with
  | [] => (false, tr, [])
  | o :: rest =>
      if (sc <=? o_src_cur o) || (tc <=? o_tar_cur o) then
        let is_trans :=
          Z.abs (tc - sc) >=? Z.abs (o_tar_cur o - o_src_cur o) in
        if is_trans then (is_trans, tr + 1, o :: rest)
        else if negb (o_trans o) then
          (is_trans, tr + 1,
           mk_ofs (o_src_cur o) (o_tar_cur o) true :: rest)
        else (is_trans, tr, o :: rest)
      else if (sc >? o_tar_cur o) && (tc >? o_src_cur o) then
        scan_offsets sc tc tr rest
      else
        let '(is_trans, tr', rest') := scan_offsets sc tc tr rest in
        (is_trans, tr', o :: rest')
  end.

Section Scan.

Variable max_offset : Z.
Variable max_distance : Z.
Variable src tar : list ascii.

Let src_len : Z := len src.
Let tar_len : Z := len tar.

(** [src[i] == tar[j]]; [None] when one of the two subscripts raises. *)
Definition chars_eq (i j : Z) : option bool :=
  match py_getitem src i, py_getitem tar j with
  | Some x, Some y => Some (Ascii.eqb x y)
  | _, _ => None
  end.

(** The matching branch (lines 116-138). *)
Definition match_step (st : state) : state :=
  let '(is_trans, tr, arr) :=
    scan_offsets (src_cur st) (tar_cur st) (trans st) (offset_arr st) in
  mk_state (src_cur st) (tar_cur st) (lcss st) (local_cs st + 1) tr
           (arr ++ [mk_ofs (src_cur st) (tar_cur st) is_trans]).

(** The loop [for i in range(self._max_offset)] of the mismatch branch, with
    [n] iterations left.  The cursors are only assigned just before [break],
    so the result is the pair of cursors after the loop; [None] is an
    [IndexError].  The [and] conditions evaluate their subscripts only when
    the bound test before them holds. *)
Fixpoint look_ahead (sc tc i : Z) (n : nat) : option (Z * Z) :=
  match n with
  | O => Some (sc, tc)
  | S n' =>
      if negb ((sc + i <? src_len) || (tc + i <? tar_len)) then Some (sc, tc)
      else
        match (if sc + i <? src_len then chars_eq (sc + i) tc
               else Some false) with
        | None => None
        | Some true => Some (sc + (i - 1), tc - 1)
        | Some false =>
            match (if tc + i <? tar_len then chars_eq sc (tc + i)
                   else Some false) with
            | None => None
            | Some true => Some (sc - 1, tc + (i - 1))
            | Some false => look_ahead sc tc (i + 1) n'
            end
        end
  end.

(** The mismatch branch (lines 140-160). *)
Definition mismatch_step (st : state) : option state :=
  let lcss' := lcss st + local_cs st in
  let '(sc, tc) :=
    if negb (src_cur st =? tar_cur st)
    then (Z.min (src_cur st) (tar_cur st), Z.min (src_cur st) (tar_cur st))
    else (src_cur st, tar_cur st) in
  match look_ahead sc tc 0 (Z.to_nat max_offset) with
  | None => None
  | Some (sc', tc') => Some (mk_state sc' tc' lcss' 0 (trans st) (offset_arr st))
  end.

(** [src_cur += 1; tar_cur += 1] (lines 162-163). *)
Definition bump (st : state) : state :=
  mk_state (src_cur st + 1) (tar_cur st + 1) (lcss st) (local_cs st)
           (trans st) (offset_arr st).

(** Lines 115-163: the branch on [src[src_cur] == tar[tar_cur]] followed by
    the increment of both cursors. *)
Definition advance (st : state) : option state :=
  match chars_eq (src_cur st) (tar_cur st) with
  | None => None
  | Some true => Some (bump (match_step st))
  | Some false => option_map bump (mismatch_step st)
  end.

(** [max(src_cur, tar_cur) - lcss + trans] (line 166). *)
Definition temporary_distance (st : state) : Z :=
  Z.max (src_cur st) (tar_cur st) - lcss st + trans st.

(** Lines 170-173. *)
Definition end_clause (st : state) : state :=
  if (src_cur st >=? src_len) || (tar_cur st >=? tar_len) then
    mk_state (Z.min (src_cur st) (tar_cur st))
             (Z.min (src_cur st) (tar_cur st))
             (lcss st + local_cs st) 0 (trans st) (offset_arr st)
  else st.

(** One iteration of the [while] loop (lines 115-173). *)
Definition loop_body (st : state) : step_result :=
  match advance st with
  | None => Fail IndexError
  | Some st1 =>
      if negb (max_distance =? 0)
         && (temporary_distance st1 >=? max_distance)
      then Exit (round (temporary_distance st1))
      else Continue (end_clause st1)
  end.

(** The loop condition (line 114). *)
Definition loop_cond (st : state) : bool :=
  (src_cur st <? src_len) && (tar_cur st <? tar_len).

(** The [while] loop, run for at most [fuel] iterations. *)
Fixpoint scan (fuel : nat) (st : state) : loop_result :=
  if loop_cond st then
    match fuel with
    | O => Exhausted
    | S fuel' =>
        match loop_body st with
        | Continue st' => scan fuel' st'
        | Exit v => Exited v
        | Fail e => Failed e
        end
    end
  else Finished st.

(** The state after [n] full iterations of the loop, when none of them
    returns or raises. *)
Fixpoint iterations (n : nat) (st : state) : option state :=
  match n with
  | O => Some st
  | S n' =>
      if loop_cond st then
        match loop_body st with
        | Continue st' => iterations n' st'
        | _ => None
        end
      else None
  end.

(** The state at line 114, before the first test of the loop condition. *)
Definition init : state := mk_state 0 0 0 0 0 [].

(** Lines 175-176. *)
Definition final_distance (st : state) : Z :=
  round (Z.max src_len tar_len - (lcss st + local_cs st) + trans st).

(** [dist_abs] with the loop cut after [fuel] iterations. *)
Definition dist_abs_fuel (fuel : nat) : outcome Z :=
  match src with
  | [] => Returned tar_len
  | _ :: _ =>
      match tar with
      | [] => Returned src_len
      | _ :: _ =>
          match scan fuel init with
          | Finished st => Returned (final_distance st)
          | Exited v => Returned v
          | Failed e => Raised e
          | Exhausted => OutOfFuel
          end
      end
  end.

(** A number of iterations that the loop never exceeds
    (see [scan_enough_fuel]). *)
Definition iterations_bound : nat :=
  Z.to_nat (2 * Z.min src_len tar_len + 1).

End Scan.

(** [Sift4Extended(max_offset, max_distance).dist_abs(src, tar)] *)
Definition dist_abs (max_offset max_distance : Z) (src tar : string)
  : outcome Z :=
  let s := list_ascii_of_string src in
  let t := list_ascii_of_string tar in
  dist_abs_fuel max_offset max_distance s t (iterations_bound s t).

End Sift4Extended.

(** ** Python arithmetic of the formula layer *)

(** A number returned by a formula: [x ** 0.5] is a [complex] when the
    float [x] is negative. *)
Inductive pyval : Type :=
| PyFloat (x : R)
| PyComplex (re im : R).

(** Sequencing of calls that may raise. *)
Definition bind {A B : Type} (m : outcome A) (f : A -> outcome B)
  : outcome B :=
  match m with
  | Returned v => f v
  | Raised e => Raised e
  | OutOfFuel => OutOfFuel
  end.

Notation "x <- m ;; k" := (bind m (fun x => k))
  (at level 61, m at next level, right associativity).

Module PyMath.

Local Open Scope R_scope.

(** [x / y] on numbers that are not complex: a zero divisor raises
    [ZeroDivisionError], for [int] and [float] alike. *)
Definition truediv (x y : R) : outcome R :=
  if Req_dec_T y 0 then Raised ZeroDivisionError else Returned (x / y).

(** [x ** 0.5] on a float: the square root, a [complex] number on the
    imaginary axis when [x] is negative (Python 2 raises [ValueError]
    there). *)
Definition pow_half (x : R) : pyval :=
  if Rlt_dec x 0 then PyComplex 0 (sqrt (- x)) else PyFloat (sqrt x).

(** [math.log(x, base)]: [log(x) / log(base)], a [ValueError] outside the
    domain of the logarithm. *)
Definition log (x base : R) : outcome R :=
  if Rle_dec x 0 then Raised ValueError
  else if Rle_dec base 0 then Raised ValueError
  else truediv (ln x) (ln base).

(** [x / v] for a float [x] and a float or complex [v]. *)
Definition div_val (x : R) (v : pyval) : outcome pyval :=
  match v with
  | PyFloat y => y' <- truediv x y ;; Returned (PyFloat y')
  | PyComplex re im =>
      if Req_dec_T (re * re + im * im) 0 then Raised ZeroDivisionError
      else Returned (PyComplex (x * re / (re * re + im * im))
                               (- (x * im) / (re * re + im * im)))
  end.

(** [v / w] for floats or complex numbers [v] and [w]; a float divisor of
    a complex number is taken as a complex number with no imaginary part. *)
Definition val_div (v w : pyval) : outcome pyval :=
  match v with
  | PyFloat x => div_val x w
  | PyComplex a b =>
      match w with
      | PyFloat y =>
          if Req_dec_T y 0 then Raised ZeroDivisionError
          else Returned (PyComplex (a / y) (b / y))
      | PyComplex c d =>
          if Req_dec_T (c * c + d * d) 0 then Raised ZeroDivisionError
          else Returned (PyComplex ((a * c + b * d) / (c * c + d * d))
                                   ((b * c - a * d) / (c * c + d * d)))
      end
  end.

(** [x + v] for a float [x] and a float or complex [v]. *)
Definition add_val (x : R) (v : pyval) : pyval :=
  match v with
  | PyFloat y => PyFloat (x + y)
  | PyComplex re im => PyComplex (x + re) im
  end.

End PyMath.

(** ** The token-set engine *)

Module TokenDistance.

(** Modelled from the spec: the contingency cardinalities that the base
    class [_TokenDistance] (abydos/distance/_token_distance.py, not among
    the sources) hands to every formula after [tokenize(src, tar)]:
    [a = |X & Y|], [b = |X \ Y|], [c = |Y \ X|], [d = |N \ (X | Y)|] and the
    population size [n].  They are the integers of the default ('crisp')
    intersection on unscaled counts. *)
Record Cardinalities : Type := mk_cards {
  card_a : Z;
  card_b : Z;
  card_c : Z;
  card_d : Z;
  card_n : Z
}.

(** Modelled from the spec: what a configured engine instance does with a
    pair of strings ([compare(source, target) -> Cardinalities]). *)
Definition engine : Type := string -> string -> Cardinalities.

(** Modelled from the spec: the accessors [card(Xs) = a + b] and
    [card(Xt) = a + c] ([_src_card], [_tar_card]). *)
Definition src_card (k : Cardinalities) : Z := card_a k + card_b k.
Definition tar_card (k : Cardinalities) : Z := card_a k + card_c k.

(** Modelled from the spec: the tokenizer interface, a string to its
    ordered sequence of tokens; the multiset of a string counts the
    occurrences in that sequence. *)
Definition tokenizer : Type := string -> list string.

(** Modelled from the spec: [Xs[t]], the count of token [t]. *)
Definition count (X : list string) (t : string) : Z :=
  Z.of_nat (count_occ string_dec X t).

(** Modelled from the spec: [card] sums the multiset counts. *)
Definition card (X : list string) : Z := len X.

(** Modelled from the spec: the exact intersection cardinality, the sum
    over tokens [t] of [min(Xs[t], Xt[t])]. *)
Definition intersection_card (Xs Xt : list string) : Z :=
  fold_right (fun t acc => Z.min (count Xs t) (count Xt t) + acc) 0
             (nodup string_dec Xs).

(** Modelled from the spec: the Token-Set Contingency Engine in exact mode
    (section 4.1), for a tokenizer [tok] and a population size [n], where
    [n = 0] stands for an unresolved population. *)
Definition compare (tok : tokenizer) (n : Z) : engine :=
  fun src tar =>
    let Xs := tok src in
    let Xt := tok tar in
    let a := intersection_card Xs Xt in
    let b := card Xs - a in
    let c := card Xt - a in
    let d := if n =? 0 then 0 else n - a - b - c in
    mk_cards a b c d n.

(** Modelled from the spec: the tokenizer of the illustration in section 8,
    single-character tokens. *)
Fixpoint characters (s : string) : list string :=
  match s with
  | EmptyString => []
  | String ch rest => String ch EmptyString :: characters rest
  end.

End TokenDistance.

(** ** The formulas *)

Module Formulas.

Import TokenDistance PyMath.

Section WithEngine.

(** The configured instance: what [self.tokenize(src, tar)] followed by the
    cardinality accessors yields. *)
Variable self : engine.

(** [Doolittle.sim] (lines 170-177). *)
Definition Doolittle_sim (src tar : string) : outcome R :=
  let k := self src tar in
  let a := IZR (card_a k) in
  let b := IZR (card_b k) in
  let c := IZR (card_c k) in
  let d := IZR (card_d k) in
  truediv ((a * d - b * c) ^ 2) ((a + b) * (a + c) * (b + d) * (c + d))%R.

(** [Dennis.sim_score] (lines 141-157).  The test on the two strings comes
    before the engine is used. *)
Definition Dennis_sim_score (src tar : string) : outcome pyval :=
  if (String.length src =? 0)%nat && (String.length tar =? 0)%nat
  then Returned (PyFloat 0)
  else
    let k := self src tar in
    let a := IZR (card_a k) in
    abacn <- truediv (IZR (src_card k) * IZR (tar_card k))%R
                     (IZR (card_n k)) ;;
    let num := (a - abacn)%R in
    if Req_dec_T num 0 then Returned (PyFloat 0)
    else div_val num (pow_half abacn).

(** [PearsonIII.corr] (lines 147-148); [phi_corr] is the method [corr] of
    the base class [PearsonPhi]. *)
Definition PearsonIII_corr (phi_corr : string -> string -> outcome R)
  (src tar : string) : outcome pyval :=
  phi <- phi_corr src tar ;;
  q <- truediv phi (IZR (card_n (self src tar)) + phi)%R ;;
  Returned (pow_half q).

(** Modelled from the spec: [PearsonPhi.corr]
    (abydos/distance/_pearson_phi.py is not among the sources), after the
    formula in the docstring of [PearsonIII]:
    [(ad - bc) / sqrt(|X| |Y| |N \ X| |N \ Y|)]. *)
Definition PearsonPhi_corr (src tar : string) : outcome R :=
  let k := self src tar in
  let a := IZR (card_a k) in
  let b := IZR (card_b k) in
  let c := IZR (card_c k) in
  let d := IZR (card_d k) in
  truediv (a * d - b * c)%R
          (sqrt ((a + b) * (a + c) * (c + d) * (b + d))).

(** [TullossS.sim] (lines 136-142). *)
Definition TullossS_sim (src tar : string) : outcome pyval :=
  let k := self src tar in
  let a := IZR (card_a k) in
  let b := IZR (card_b k) in
  let c := IZR (card_c k) in
  q <- truediv (Rmin b c) (a + 1)%R ;;
  l <- log (2 + q)%R 2%R ;;
  div_val 1%R (pow_half l).

(** What the instance holds after [Dennis.sim_score(src, tar)], when it
    held [stored] before: the early return for two empty strings comes
    before [self._tokenize(src, tar)] and leaves the instance as it was. *)
Definition Dennis_stored_after (stored : Cardinalities) (src tar : string)
  : Cardinalities :=
  if (String.length src =? 0)%nat && (String.length tar =? 0)%nat
  then stored
  else self src tar.

(** [Dennis.corr] (line 190): the score, then the population cardinality
    that the instance holds after the call of [sim_score]. *)
Definition Dennis_corr (stored : Cardinalities) (src tar : string)
  : outcome pyval :=
  score <- Dennis_sim_score src tar ;;
  val_div score
    (pow_half (IZR (card_n (Dennis_stored_after stored src tar)))).

(** [Dennis.sim] (line 223). *)
Definition Dennis_sim (stored : Cardinalities) (src tar : string)
  : outcome pyval :=
  c <- Dennis_corr stored src tar ;;
  val_div (add_val 1 c) (PyFloat 2).

End WithEngine.

End Formulas.

(** ** MetaSoundex *)

Module Hybrid.

(** [MetaSoundex._trans] (lines 114-119): the letters 'A' to 'Z' zipped
    with the digits of the second string.  The keys are distinct, so the
    first pair with a given key is the entry of the [dict]. *)
Definition _trans : list (ascii * ascii) :=
  combine (list_ascii_of_string "ABCDEFGHIJKLMNOPQRSTUVWXYZ")
          (list_ascii_of_string "07430755015866075943077514").

(** [ch.translate(table)] on a one-character string: the entry of the
    table, or the character itself when the table has no entry for it. *)
Definition translate (table : list (ascii * ascii)) (ch : ascii) : ascii :=
  match find (fun p => Ascii.eqb (fst p) ch) table with
  | Some p => snd p
  | None => ch
  end.

(** Line 160 of [MetaSoundex.metasoundex], as a function of the value that
    [word] holds after line 159:
    [word[0].translate(self._trans) + word[1:]]. *)
Definition recode (word : string) : outcome string :=
  match word with
  | EmptyString => Raised IndexError
  | String ch rest => Returned (String (translate _trans ch) rest)
  end.

End Hybrid.

(** ** SonoriPy tokenizer *)

Module SonoriPyTokenizer.

(** The characters below U+0100 at which [str.split()] splits:
    tab to carriage return, the four separators U+001C to U+001F, the
    space, NEL and the no-break space. *)
Definition is_space (ch : ascii) : bool :=
  let n := nat_of_ascii ch in
  ((9 <=? n) && (n <=? 13))%nat || ((28 <=? n) && (n <=? 32))%nat
  || (n =? 133)%nat || (n =? 160)%nat.

(** The word collected so far (its characters in reverse), as the list of
    words it adds to the result of [split]: none when it is empty. *)
Definition flush (cur : list ascii) : list string :=
  match cur with
  | [] => []
  | _ :: _ => [string_of_list_ascii (rev cur)]
  end.

(** [split] with the characters of the word in progress in [cur]. *)
Fixpoint split_from (cur : list ascii) (s : string) : list string :=
  match s with
  | EmptyString => flush cur
  | String ch rest =>
      if is_space ch then (flush cur ++ split_from [] rest)%list
      else split_from (ch :: cur) rest
  end.

(** [string.split()]: the maximal runs of characters that are not
    whitespace. *)
Definition split (s : string) : list string := split_from [] s.

Section WithSyllabifier.

(** [SonoriPy], the syllabifier of the SyllabiPy package. *)
Variable SonoriPy : string -> list string.

(** [self._ordered_list] after lines 89-91 of
    [SonoriPyTokenizer.tokenize]. *)
Definition ordered_list (string : string) : list String.string :=
  fold_left (fun acc word => (acc ++ SonoriPy word)%list) (split string) [].

End WithSyllabifier.

End SonoriPyTokenizer.

(** * Vocabulary of the properties *)

Import Sift4Extended TokenDistance.

(** What holds of the local variables each time the loop condition is
    tested: the cursors are inside their strings (or just past the end), and
    the characters counted as common so far do not outnumber the positions
    both cursors have gone past. *)
Definition scan_inv (src tar : list ascii) (st : state) : Prop :=
  0 <= src_cur st <= len src /\
  0 <= tar_cur st <= len tar /\
  0 <= lcss st /\
  0 <= local_cs st /\
  lcss st + local_cs st <= Z.min (src_cur st) (tar_cur st) /\
  0 <= trans st.

(** The quantity that every iteration decreases: twice the distance of the
    lower cursor from the end of the shorter string, plus one when the
    characters under the cursors differ. *)
Definition scan_measure (src tar : list ascii) (st : state) : Z :=
  2 * (Z.min (len src) (len tar) - Z.min (src_cur st) (tar_cur st))
  + match chars_eq src tar (src_cur st) (tar_cur st) with
    | Some true => 0
    | _ => 1
    end.

(** The three ways the look-ahead loop ends. *)
Inductive look_ahead_spec (src tar : list ascii) (sc tc i : Z)
  : Z * Z -> Prop :=
| la_none : look_ahead_spec src tar sc tc i (sc, tc)
| la_src (j : Z) :
    i <= j -> sc + j < len src ->
    chars_eq src tar (sc + j) tc = Some true ->
    look_ahead_spec src tar sc tc i (sc + (j - 1), tc - 1)
| la_tar (j : Z) :
    i <= j -> tc + j < len tar ->
    chars_eq src tar sc (tc + j) = Some true ->
    look_ahead_spec src tar sc tc i (sc - 1, tc + (j - 1)).

(** The offset history when both cursors are at [k] in a self-comparison:
    the pair matched last, if any. *)
Definition diag_history (k : Z) : list ofs :=
  if k =? 0 then [] else [mk_ofs (k - 1) (k - 1) false].

(** The state of a self-comparison when both cursors are at [k]. *)
Definition diag (k : Z) : state := mk_state k k 0 k 0 (diag_history k).

(** The state of a self-comparison when the loop is left. *)
Definition diag_end (s : list ascii) : state :=
  mk_state (len s) (len s) (len s) 0 0 (diag_history (len s)).

(** The state in which a scan along the diagonal leaves the loop, [n] being
    the length of the shorter string. *)
Definition diag_stop (n : Z) : state :=
  mk_state n n n 0 0 (diag_history n).

(** The number of positions at which two strings carry the same
    character. *)
Definition agreements (s t : list ascii) : Z :=
  len (filter (fun p => Ascii.eqb (fst p) (snd p)) (combine s t)).

(** What the scan keeps when it never looks ahead: the cursors stay
    together, no transposition is counted, the history lies behind the
    cursors, and the characters counted as common are the agreements
    behind the cursors. *)
Definition lockstep (s t : list ascii) (st : state) : Prop :=
  src_cur st = tar_cur st /\
  trans st = 0 /\
  (forall e, In e (offset_arr st) ->
     o_src_cur e < src_cur st /\ o_tar_cur e < src_cur st) /\
  lcss st + local_cs st
  = agreements (firstn (Z.to_nat (src_cur st)) s)
               (firstn (Z.to_nat (src_cur st)) t).

(** The scan has run along the diagonal so far: the cursors are together,
    the strings agree behind them, and so does the history lie. *)
Definition on_diagonal (s t : list ascii) (st : state) : Prop :=
  src_cur st = tar_cur st /\
  (forall i, 0 <= i < src_cur st -> chars_eq s t i i = Some true) /\
  (forall e, In e (offset_arr st) ->
     o_src_cur e < src_cur st /\ o_tar_cur e < src_cur st).

(** The scan has left the diagonal: either the cursors are apart on a pair
    of equal characters that the next iteration will match, or the pair
    matched last reaches the lower cursor in one of the strings. *)
Definition off_diagonal (s t : list ascii) (st : state) : Prop :=
  (src_cur st <> tar_cur st /\
   chars_eq s t (src_cur st) (tar_cur st) = Some true) \/
  (exists h q,
     offset_arr st = (h ++ [q])%list /\
     Z.min (src_cur st) (tar_cur st)
     <= Z.max (o_src_cur q) (o_tar_cur q)).

(** What the scan keeps, on top of [scan_inv], as long as no transposition
    is counted and every position passed by the lower cursor has given a
    common character. *)
Definition flawless (s t : list ascii) (st : state) : Prop :=
  (loop_cond s t st = false -> src_cur st = tar_cur st) /\
  (forall e, In e (offset_arr st) ->
     o_src_cur e < len s /\ o_tar_cur e < len t) /\
  (trans st = 0 -> forall e, In e (offset_arr st) -> o_trans e = false) /\
  (trans st = 0 ->
   lcss st + local_cs st = Z.min (src_cur st) (tar_cur st) ->
   on_diagonal s t st \/ off_diagonal s t st).

(** The uppercase letters 'A' to 'Z' and the digits '0' to '9'. *)
Definition is_upper (ch : ascii) : bool :=
  ((65 <=? nat_of_ascii ch) && (nat_of_ascii ch <=? 90))%nat.
Definition is_digit (ch : ascii) : bool :=
  ((48 <=? nat_of_ascii ch) && (nat_of_ascii ch <=? 57))%nat.

(** The scan has counted no common character and no transposition. *)
Definition nothing_common (st : state) : Prop :=
  lcss st = 0 /\ local_cs st = 0 /\ trans st = 0.

(** A pair of the history, moved one position to the right in both
    strings. *)
Definition shift_ofs (e : ofs) : ofs :=
  mk_ofs (o_src_cur e + 1) (o_tar_cur e + 1) (o_trans e).

(** How the scan of two strings that start with the same character, once
    that character is matched, relates to the scan of the rest of the two
    strings: the cursors are one position further, one more character is
    counted as common, and the history is the same one position further,
    up to the pair of the first character while nothing else is matched. *)
Definition shifted (stA stB : state) : Prop :=
  src_cur stA = src_cur stB + 1 /\
  tar_cur stA = tar_cur stB + 1 /\
  lcss stA + local_cs stA = lcss stB + local_cs stB + 1 /\
  trans stA = trans stB /\
  (offset_arr stA = map shift_ofs (offset_arr stB) \/
   (offset_arr stB = [] /\ offset_arr stA = [mk_ofs 0 0 false])).

(** The test of line 121: the new pair [(sc, tc)] does not lie beyond the
    historical pair [e] in both strings. *)
Definition overlapping (sc tc : Z) (e : ofs) : bool :=
  (sc <=? o_src_cur e) || (tc <=? o_tar_cur e).

(** The test of line 131: the cursor ranges of [e] are entirely below the
    new pair [(sc, tc)]. *)
Definition superseded (sc tc : Z) (e : ofs) : bool :=
  (sc >? o_tar_cur e) && (tc >? o_src_cur e).

(** The test of line 122: the gap of the new pair is at least the gap of
    [e]. *)
Definition wider_gap (sc tc : Z) (e : ofs) : bool :=
  Z.abs (tc - sc) >=? Z.abs (o_tar_cur e - o_src_cur e).

(** The sum of the counts in [X] of the tokens of [l]. *)
Definition sum_counts (X l : list string) : Z :=
  fold_right (fun t acc => count X t + acc) 0 l.

(** * Properties of Sift4 Extended *)

Import Sift4Extended.

(** ** Subscripts *)

Lemma py_getitem_in_range {A : Type} (s : list A) (i : Z) :
  0 <= i < len s -> exists x, py_getitem s i = Some x.
Proof.
  intros [Hlo Hhi]. unfold py_getitem.
  apply Z.leb_le in Hlo. rewrite Hlo.
  destruct (nth_error s (Z.to_nat i)) as [x|] eqn:E.
  - now exists x.
  - apply nth_error_None in E. unfold len in Hhi.
    apply Z.leb_le in Hlo. lia.
Qed.

Lemma chars_eq_in_range (src tar : list ascii) (i j : Z) :
  0 <= i < len src -> 0 <= j < len tar ->
  exists b, chars_eq src tar i j = Some b.
Proof.
  intros Hi Hj. unfold chars_eq.
  destruct (py_getitem_in_range src i Hi) as [x ->].
  destruct (py_getitem_in_range tar j Hj) as [y ->].
  now eexists.
Qed.

(** ** The offset history of a matching step *)

(** The transposition counter never decreases. *)
Lemma scan_offsets_trans_mono (sc tc tr : Z) (arr : list ofs) :
  tr <= snd (fst (scan_offsets sc tc tr arr)).
Proof.
  induction arr as [|o rest IH]; simpl; [lia|].
  destruct ((sc <=? o_src_cur o) || (tc <=? o_tar_cur o)).
  - destruct (Z.abs (tc - sc) >=? Z.abs (o_tar_cur o - o_src_cur o));
      [|destruct (negb (o_trans o))]; simpl; lia.
  - destruct ((sc >? o_tar_cur o) && (tc >? o_src_cur o)); [exact IH|].
    destruct (scan_offsets sc tc tr rest) as [[b t] r]. simpl in *. lia.
Qed.

(** ** Invariant and progress of the scan loop *)

Section ScanProperties.

Variable max_offset : Z.
Variable max_distance : Z.
Variable src tar : list ascii.

Local Abbreviation src_len := (len src).
Local Abbreviation tar_len := (len tar).

Lemma look_ahead_spec_weaken (sc tc i i' : Z) (r : Z * Z) :
  i' <= i -> look_ahead_spec src tar sc tc i r -> look_ahead_spec src tar sc tc i' r.
Proof.
  intros Hi H. destruct H as [|j Hj Hlt He|j Hj Hlt He].
  - constructor.
  - apply la_src with (j := j); auto; lia.
  - apply la_tar with (j := j); auto; lia.
Qed.

(** With both cursors inside their strings the look-ahead raises nothing. *)
Lemma look_ahead_ok (sc tc : Z) (n : nat) :
  0 <= sc < src_len -> 0 <= tc < tar_len ->
  forall i, 0 <= i ->
  exists r, look_ahead src tar sc tc i n = Some r /\ look_ahead_spec src tar sc tc i r.
Proof.
  intros Hs Ht. induction n as [|n IH]; intros i Hi; simpl.
  - eexists; split; [reflexivity|constructor].
  - destruct (negb ((sc + i <? src_len) || (tc + i <? tar_len))).
    { eexists; split; [reflexivity|constructor]. }
    destruct (sc + i <? src_len) eqn:E1.
    + apply Z.ltb_lt in E1.
      destruct (chars_eq_in_range src tar (sc + i) tc) as [b Hb];
        [lia|lia|].
      rewrite Hb. destruct b.
      { eexists; split; [reflexivity|]. apply la_src with (j := i); auto; lia. }
      destruct (tc + i <? tar_len) eqn:E2.
      * apply Z.ltb_lt in E2.
        destruct (chars_eq_in_range src tar sc (tc + i)) as [b' Hb'];
          [lia|lia|].
        rewrite Hb'. destruct b'.
        { eexists; split; [reflexivity|].
          apply la_tar with (j := i); auto; lia. }
        destruct (IH (i + 1)) as [r [Hr Hspec]]; [lia|].
        exists r; split; [exact Hr|].
        apply look_ahead_spec_weaken with (i := i + 1); auto; lia.
      * destruct (IH (i + 1)) as [r [Hr Hspec]]; [lia|].
        exists r; split; [exact Hr|].
        apply look_ahead_spec_weaken with (i := i + 1); auto; lia.
    + destruct (tc + i <? tar_len) eqn:E2.
      * apply Z.ltb_lt in E2.
        destruct (chars_eq_in_range src tar sc (tc + i)) as [b' Hb'];
          [lia|lia|].
        rewrite Hb'. destruct b'.
        { eexists; split; [reflexivity|].
          apply la_tar with (j := i); auto; lia. }
        destruct (IH (i + 1)) as [r [Hr Hspec]]; [lia|].
        exists r; split; [exact Hr|].
        apply look_ahead_spec_weaken with (i := i + 1); auto; lia.
      * destruct (IH (i + 1)) as [r [Hr Hspec]]; [lia|].
        exists r; split; [exact Hr|].
        apply look_ahead_spec_weaken with (i := i + 1); auto; lia.
Qed.

Lemma loop_cond_true (st : state) :
  loop_cond src tar st = true <->
  src_cur st < src_len /\ tar_cur st < tar_len.
Proof.
  unfold loop_cond. rewrite andb_true_iff, !Z.ltb_lt. tauto.
Qed.

Lemma scan_measure_bounds (st : state) :
  2 * (Z.min src_len tar_len - Z.min (src_cur st) (tar_cur st))
  <= scan_measure src tar st
  <= 2 * (Z.min src_len tar_len - Z.min (src_cur st) (tar_cur st)) + 1.
Proof.
  unfold scan_measure.
  destruct (chars_eq src tar (src_cur st) (tar_cur st)) as [[|]|]; lia.
Qed.

(** The end clause keeps the invariant and the lower cursor. *)
Lemma end_clause_inv (st : state) :
  scan_inv src tar st ->
  scan_inv src tar (end_clause src tar st) /\
  Z.min (src_cur (end_clause src tar st)) (tar_cur (end_clause src tar st))
  = Z.min (src_cur st) (tar_cur st).
Proof.
  unfold scan_inv, end_clause. intros H.
  destruct ((src_cur st >=? src_len) || (tar_cur st >=? tar_len));
    simpl; lia.
Qed.

(** A matching step leaves the cursors and [lcss] alone, counts one more
    common character and never lowers the transposition counter. *)
Lemma match_step_fields (st : state) :
  let st' := match_step st in
  src_cur st' = src_cur st /\ tar_cur st' = tar_cur st /\
  lcss st' = lcss st /\ local_cs st' = local_cs st + 1 /\
  trans st <= trans st'.
Proof.
  unfold match_step.
  pose proof (scan_offsets_trans_mono (src_cur st) (tar_cur st) (trans st)
                (offset_arr st)) as Hm.
  destruct (scan_offsets (src_cur st) (tar_cur st) (trans st) (offset_arr st))
    as [[b t] r].
  simpl in *. repeat split; auto.
Qed.

(** Lines 115-163 raise nothing while the loop condition holds; they keep
    the invariant, and with the end clause they decrease the measure. *)
Lemma advance_progress (st : state) :
  scan_inv src tar st -> loop_cond src tar st = true ->
  exists st1,
    advance max_offset src tar st = Some st1 /\
    scan_inv src tar st1 /\
    scan_measure src tar (end_clause src tar st1) < scan_measure src tar st.
Proof.
  intros Hinv Hcond. apply loop_cond_true in Hcond.
  destruct Hcond as [Hsc Htc].
  destruct Hinv as (Hs & Ht & Hl & Hc & Hle & Htr).
  unfold advance.
  destruct (chars_eq_in_range src tar (src_cur st) (tar_cur st)) as [b Hb];
    [lia|lia|].
  pose proof (scan_measure_bounds st) as Hm0.
  assert (Hst : scan_measure src tar st
                = 2 * (Z.min src_len tar_len
                       - Z.min (src_cur st) (tar_cur st))
                  + if b then 0 else 1).
  { unfold scan_measure. rewrite Hb. now destruct b. }
  rewrite Hb. destruct b; cbv iota in Hst.
  - (* the characters match *)
    destruct (match_step_fields st) as (E1 & E2 & E3 & E4 & E5).
    exists (bump (match_step st)). split; [reflexivity|].
    assert (Hi1 : scan_inv src tar (bump (match_step st))).
    { unfold scan_inv, bump; cbn [src_cur tar_cur lcss local_cs trans].
      rewrite E1, E2, E3, E4. lia. }
    split; [exact Hi1|].
    destruct (end_clause_inv _ Hi1) as [_ Hmin].
    pose proof (scan_measure_bounds (end_clause src tar (bump (match_step st))))
      as Hm1.
    rewrite Hmin in Hm1. cbn [bump src_cur tar_cur] in Hm1.
    rewrite E1, E2 in Hm1. lia.
  - (* the characters differ *)
    unfold mismatch_step.
    set (m := Z.min (src_cur st) (tar_cur st)) in *.
    assert (Hre : (if negb (src_cur st =? tar_cur st)
                   then (m, m) else (src_cur st, tar_cur st)) = (m, m)).
    { destruct (src_cur st =? tar_cur st) eqn:E; simpl; [|reflexivity].
      apply Z.eqb_eq in E. unfold m. f_equal; lia. }
    rewrite Hre.
    assert (Hmb : 0 <= m < src_len /\ 0 <= m < tar_len) by (unfold m; lia).
    clearbody m.
    destruct (look_ahead_ok m m (Z.to_nat max_offset)) with (i := 0)
      as [[sc' tc'] [Hla Hspec]]; [lia|lia|lia|].
    rewrite Hla. cbn [option_map].
    eexists; split; [reflexivity|].
    inversion Hspec as [|j Hj Hlt He|j Hj Hlt He]; subst sc' tc'.
    + (* no resynchronisation point *)
      match goal with
      | |- scan_inv src tar ?s /\ _ => assert (Hi1 : scan_inv src tar s)
      end.
      { unfold scan_inv, bump; cbn [src_cur tar_cur lcss local_cs trans].
        lia. }
      split; [exact Hi1|].
      destruct (end_clause_inv _ Hi1) as [_ Hmin].
      match goal with
      | |- scan_measure src tar ?s < _ => pose proof (scan_measure_bounds s) as Hm1
      end.
      rewrite Hmin in Hm1. cbn [bump src_cur tar_cur] in Hm1. lia.
    + (* the character of [tar] reappears in [src] *)
      split.
      { unfold scan_inv, bump; cbn [src_cur tar_cur lcss local_cs trans].
        lia. }
      unfold end_clause, bump; cbn [src_cur tar_cur lcss local_cs trans].
      replace (m + (j - 1) + 1 >=? src_len) with false by (symmetry; lia).
      replace (m - 1 + 1 >=? tar_len) with false by (symmetry; lia).
      cbn [orb]. rewrite Hst. unfold scan_measure; cbn [src_cur tar_cur].
      replace (m + (j - 1) + 1) with (m + j) by lia.
      replace (m - 1 + 1) with m by lia.
      rewrite He. lia.
    + (* the character of [src] reappears in [tar] *)
      split.
      { unfold scan_inv, bump; cbn [src_cur tar_cur lcss local_cs trans].
        lia. }
      unfold end_clause, bump; cbn [src_cur tar_cur lcss local_cs trans].
      replace (m - 1 + 1 >=? src_len) with false by (symmetry; lia).
      replace (m + (j - 1) + 1 >=? tar_len) with false by (symmetry; lia).
      cbn [orb]. rewrite Hst. unfold scan_measure; cbn [src_cur tar_cur].
      replace (m + (j - 1) + 1) with (m + j) by lia.
      replace (m - 1 + 1) with m by lia.
      rewrite He. lia.
Qed.

(** One iteration: no exception; either the loop goes on from a state that
    satisfies the invariant and has a smaller measure, or the early exit
    returns a non-negative value. *)
Lemma loop_body_progress (st : state) :
  scan_inv src tar st -> loop_cond src tar st = true ->
  match loop_body max_offset max_distance src tar st with
  | Continue st' =>
      scan_inv src tar st' /\ 0 <= scan_measure src tar st' < scan_measure src tar st
  | Exit v => 0 <= v
  | Fail _ => False
  end.
Proof.
  intros Hinv Hcond.
  destruct (advance_progress st Hinv Hcond) as (st1 & Ha & Hi1 & Hm).
  unfold loop_body. rewrite Ha.
  destruct (negb (max_distance =? 0)
            && (temporary_distance st1 >=? max_distance)).
  - unfold round, temporary_distance, scan_inv in *. lia.
  - destruct (end_clause_inv st1 Hi1) as [Hi2 _].
    split; [exact Hi2|]. split; [|exact Hm].
    pose proof (scan_measure_bounds (end_clause src tar st1)).
    unfold scan_inv in Hi2. lia.
Qed.

(** The loop ends within [fuel] iterations as soon as [fuel] is at least the
    measure of the state it starts from. *)
Lemma scan_enough_fuel (fuel : nat) :
  forall st, scan_inv src tar st -> scan_measure src tar st <= Z.of_nat fuel ->
  match scan max_offset max_distance src tar fuel st with
  | Finished st' => scan_inv src tar st' /\ loop_cond src tar st' = false
  | Exited v => 0 <= v
  | Failed _ => False
  | Exhausted => False
  end.
Proof.
  induction fuel as [|fuel IH]; intros st Hinv Hfuel.
  - simpl. destruct (loop_cond src tar st) eqn:Hc; [|auto].
    apply loop_cond_true in Hc. pose proof (scan_measure_bounds st).
    unfold scan_inv in Hinv. lia.
  - cbn [scan]. destruct (loop_cond src tar st) eqn:Hc; [|auto].
    pose proof (loop_body_progress st Hinv Hc) as Hp.
    destruct (loop_body max_offset max_distance src tar st) as [st'|v|e];
      [|exact Hp|exact Hp].
    destruct Hp as [Hi' Hm']. apply IH; [exact Hi'|lia].
Qed.

(** More iterations than needed change nothing. *)
Lemma scan_fuel_mono (fuel : nat) :
  forall st k,
  scan max_offset max_distance src tar fuel st <> Exhausted ->
  scan max_offset max_distance src tar (fuel + k) st
  = scan max_offset max_distance src tar fuel st.
Proof.
  induction fuel as [|fuel IH]; intros st k H.
  - simpl in H. destruct k; simpl;
      destruct (loop_cond src tar st); congruence.
  - cbn [scan Nat.add] in *. destruct (loop_cond src tar st); [|reflexivity].
    destruct (loop_body max_offset max_distance src tar st); auto.
Qed.

(** The invariant holds after any number of full iterations. *)
Lemma iterations_inv (n : nat) :
  forall st st',
  scan_inv src tar st ->
  iterations max_offset max_distance src tar n st = Some st' ->
  scan_inv src tar st'.
Proof.
  induction n as [|n IH]; intros st st' Hinv H; cbn [iterations] in H.
  - now injection H as <-.
  - destruct (loop_cond src tar st) eqn:Hc; [|discriminate].
    pose proof (loop_body_progress st Hinv Hc) as Hp.
    destruct (loop_body max_offset max_distance src tar st) as [st1|v|e];
      try discriminate.
    apply (IH st1 st'); [apply Hp|exact H].
Qed.

Lemma init_inv : scan_inv src tar init.
Proof.
  unfold scan_inv, init, len.
  cbn [src_cur tar_cur lcss local_cs trans]. lia.
Qed.

Lemma init_measure :
  scan_measure src tar init <= Z.of_nat (iterations_bound src tar).
Proof.
  pose proof (scan_measure_bounds init) as H.
  cbn [init src_cur tar_cur] in H.
  unfold iterations_bound. unfold len in *. lia.
Qed.

End ScanProperties.

(** ** Termination and sign of the result *)

Lemma dist_abs_fuel_total (max_offset max_distance : Z) (s t : list ascii) :
  exists v,
    0 <= v /\
    forall k,
      dist_abs_fuel max_offset max_distance s t (iterations_bound s t + k)
      = Returned v.
Proof.
  unfold dist_abs_fuel.
  destruct s as [|a s'].
  { exists (len t). split; [unfold len; lia|reflexivity]. }
  destruct t as [|b t'].
  { exists (len (a :: s')). split; [unfold len; lia|reflexivity]. }
  set (s := a :: s'). set (t := b :: t').
  pose proof (scan_enough_fuel max_offset max_distance s t
                (iterations_bound s t) init (init_inv s t)
                (init_measure s t)) as H.
  assert (Hne : scan max_offset max_distance s t (iterations_bound s t) init
                <> Exhausted).
  { intros E. rewrite E in H. exact H. }
  destruct (scan max_offset max_distance s t (iterations_bound s t) init)
    as [st|v|e|] eqn:E; try contradiction.
  - exists (final_distance s t st). split.
    + destruct H as [Hinv _]. unfold final_distance, round, scan_inv in *. lia.
    + intros k. rewrite scan_fuel_mono, E; [reflexivity|congruence].
  - exists v. split; [exact H|].
    intros k. rewrite scan_fuel_mono, E; [reflexivity|congruence].
Qed.

Lemma dist_abs_returns (max_offset max_distance : Z) (src tar : string) :
  exists v, dist_abs max_offset max_distance src tar = Returned v.
Proof.
  destruct (dist_abs_fuel_total max_offset max_distance
              (list_ascii_of_string src) (list_ascii_of_string tar))
    as (v & _ & Hk).
  exists v. unfold dist_abs. rewrite <- (Hk 0%nat), Nat.add_0_r. reflexivity.
Qed.

(** C3. For all strings [src] and [tar], every [max_offset] and every
    [max_distance], [dist_abs] returns: it raises nothing, the scan loop ends
    within [iterations_bound] iterations (allowing more changes nothing), and
    the returned integer is non-negative.  Every iteration that the scan
    reaches makes progress: it returns a non-negative value through the
    early exit, or it strictly decreases the non-negative [scan_measure],
    which combines the distance of the lower cursor from the end of the
    shorter string with the outcome of the next character comparison; the
    realignment to the cursor minimum and the look-ahead adjustments are
    part of the iteration. *)
Theorem dist_abs_terminates_nonneg
  (max_offset max_distance : Z) (src tar : string) :
  (exists v,
     dist_abs max_offset max_distance src tar = Returned v /\
     0 <= v /\
     forall k,
       dist_abs_fuel max_offset max_distance
         (list_ascii_of_string src) (list_ascii_of_string tar)
         (iterations_bound (list_ascii_of_string src)
                           (list_ascii_of_string tar) + k)
       = Returned v) /\
  (forall n st,
     iterations max_offset max_distance
       (list_ascii_of_string src) (list_ascii_of_string tar) n init
     = Some st ->
     loop_cond (list_ascii_of_string src) (list_ascii_of_string tar) st
     = true ->
     match loop_body max_offset max_distance
             (list_ascii_of_string src) (list_ascii_of_string tar) st with
     | Continue st' =>
         0 <= scan_measure (list_ascii_of_string src)
                (list_ascii_of_string tar) st'
           < scan_measure (list_ascii_of_string src)
               (list_ascii_of_string tar) st
     | Exit v => 0 <= v
     | Fail _ => False
     end).
Proof.
  split.
  - destruct (dist_abs_fuel_total max_offset max_distance
                (list_ascii_of_string src) (list_ascii_of_string tar))
      as (v & Hv & Hk).
    exists v. split; [|split; [exact Hv|exact Hk]].
    unfold dist_abs. rewrite <- (Hk 0%nat), Nat.add_0_r. reflexivity.
  - intros n st Hreach Hcond.
    pose proof (iterations_inv max_offset max_distance _ _ n init st
                  (init_inv _ _) Hreach) as Hinv.
    pose proof (loop_body_progress max_offset max_distance _ _ st
                  Hinv Hcond) as Hp.
    destruct (loop_body max_offset max_distance
                (list_ascii_of_string src) (list_ascii_of_string tar) st);
      [apply Hp|exact Hp|exact Hp].
Qed.

(** An instance: the third iteration of the scan of ('ab', 'bab'), a
    mismatch step with a look-ahead adjustment. *)
Lemma dist_abs_terminates_nonneg_witness :
  let s := list_ascii_of_string "ab" in
  let t := list_ascii_of_string "bab" in
  let st := mk_state 1 1 1 0 0 [mk_ofs 1 0 false] in
  let st' := mk_state 1 2 1 0 0 [mk_ofs 1 0 false] in
  iterations 5 0 s t 2 init = Some st /\
  loop_cond s t st = true /\
  loop_body 5 0 s t st = Continue st' /\
  0 <= scan_measure s t st' < scan_measure s t st.
Proof.
  intros s t st st'.
  assert (Hreach : iterations 5 0 s t 2 init = Some st) by reflexivity.
  assert (Hcond : loop_cond s t st = true) by reflexivity.
  assert (Hbody : loop_body 5 0 s t st = Continue st') by reflexivity.
  split; [exact Hreach|]. split; [exact Hcond|]. split; [exact Hbody|].
  pose proof (proj2 (dist_abs_terminates_nonneg 5 0 "ab" "bab")
                2%nat st Hreach Hcond) as H.
  fold s t in H. rewrite Hbody in H. exact H.
Defined.

(** ** The distance bound *)

Section Bounded.

Variable max_offset : Z.
Variable K : Z.
Variable src tar : list ascii.

(** An iteration under the bound [K] either does what the unbounded
    iteration does or leaves through the early exit with a value of at
    least [K]. *)
Lemma loop_body_bounded (st : state) :
  loop_body max_offset K src tar st = loop_body max_offset 0 src tar st \/
  exists v, loop_body max_offset K src tar st = Exit v /\ K <= v.
Proof.
  unfold loop_body. destruct (advance max_offset src tar st) as [st1|];
    [|now left].
  cbn [Z.eqb negb andb].
  destruct (negb (K =? 0)); cbn [andb]; [|now left].
  destruct (temporary_distance st1 >=? K) eqn:E; [|now left].
  right. eexists; split; [reflexivity|]. unfold round. lia.
Qed.

Lemma scan_bounded (fuel : nat) :
  forall st,
  scan max_offset K src tar fuel st = scan max_offset 0 src tar fuel st \/
  exists v, scan max_offset K src tar fuel st = Exited v /\ K <= v.
Proof.
  induction fuel as [|fuel IH]; intros st; cbn [scan].
  - now left.
  - destruct (loop_cond src tar st); [|now left].
    destruct (loop_body_bounded st) as [E|(v & E & Hv)].
    + rewrite E.
      destruct (loop_body max_offset 0 src tar st); auto.
    + rewrite E. right. now exists v.
Qed.

End Bounded.

Lemma dist_abs_fuel_bounded
  (max_offset K : Z) (src tar : list ascii) (fuel : nat) (v : Z) :
  dist_abs_fuel max_offset K src tar fuel = Returned v ->
  dist_abs_fuel max_offset 0 src tar fuel = Returned v \/ K <= v.
Proof.
  unfold dist_abs_fuel.
  destruct src as [|a s']; [auto|]. destruct tar as [|b t']; [auto|].
  destruct (scan_bounded max_offset K (a :: s') (b :: t') fuel init)
    as [E|(w & E & Hw)]; rewrite E.
  - auto.
  - intros H. injection H as <-. now right.
Qed.

(** C4. For all strings and every bound [K > 0], [dist_abs] with
    [max_distance = K] returns a value that is the value returned with
    [max_distance = 0] or is at least [K]; and in every iteration the early
    exit is taken, with the provisional estimate
    [max(src_cur, tar_cur) - lcss + trans] as value, exactly when that
    estimate is at least [K]. *)
Theorem dist_abs_max_distance
  (max_offset K : Z) (src tar : string) :
  0 < K ->
  (exists v,
     dist_abs max_offset K src tar = Returned v /\
     (dist_abs max_offset 0 src tar = Returned v \/ K <= v)) /\
  (forall st st1,
     advance max_offset (list_ascii_of_string src)
             (list_ascii_of_string tar) st = Some st1 ->
     loop_body max_offset K (list_ascii_of_string src)
               (list_ascii_of_string tar) st
     = if temporary_distance st1 >=? K
       then Exit (temporary_distance st1)
       else Continue (end_clause (list_ascii_of_string src)
                                 (list_ascii_of_string tar) st1)).
Proof.
  intros HK. split.
  - destruct (dist_abs_returns max_offset K src tar)
      as (v & Hv).
    exists v. split; [exact Hv|].
    apply dist_abs_fuel_bounded. exact Hv.
  - intros st st1 Ha. unfold loop_body. rewrite Ha.
    replace (K =? 0) with false by (symmetry; lia).
    reflexivity.
Qed.

(** An instance: under the bound 2, the scan of ('aluminum', 'Catalan')
    leaves through the early exit in its second iteration. *)
Lemma dist_abs_max_distance_witness :
  0 < 2 /\
  dist_abs 5 2 "aluminum" "Catalan" = Returned 2 /\
  dist_abs 5 0 "aluminum" "Catalan" = Returned 5 /\
  (exists v,
     dist_abs 5 2 "aluminum" "Catalan" = Returned v /\
     (dist_abs 5 0 "aluminum" "Catalan" = Returned v \/ 2 <= v)) /\
  (forall st st1,
     advance 5 (list_ascii_of_string "aluminum")
             (list_ascii_of_string "Catalan") st = Some st1 ->
     loop_body 5 2 (list_ascii_of_string "aluminum")
               (list_ascii_of_string "Catalan") st
     = if temporary_distance st1 >=? 2
       then Exit (temporary_distance st1)
       else Continue (end_clause (list_ascii_of_string "aluminum")
                                 (list_ascii_of_string "Catalan") st1)).
Proof.
  assert (H : 0 < 2) by lia.
  split; [exact H|].
  split; [vm_compute; reflexivity|]. split; [vm_compute; reflexivity|].
  exact (dist_abs_max_distance 5 2 "aluminum" "Catalan" H).
Defined.

(** ** Comparing a string with itself *)

Section SelfComparison.

Variable max_offset : Z.
Variable s : list ascii.

Lemma chars_eq_refl (k : Z) :
  0 <= k < len s -> chars_eq s s k k = Some true.
Proof.
  intros Hk. unfold chars_eq.
  destruct (py_getitem_in_range s k Hk) as [x ->].
  now rewrite Ascii.eqb_refl.
Qed.

Lemma scan_offsets_diag (k : Z) :
  scan_offsets k k 0 (diag_history k) = (false, 0, []).
Proof.
  unfold diag_history. destruct (k =? 0); [reflexivity|].
  cbn [scan_offsets o_src_cur o_tar_cur o_trans].
  replace (k <=? k - 1) with false by (symmetry; lia).
  replace (k >? k - 1) with true by (symmetry; lia).
  reflexivity.
Qed.

Lemma diag_history_succ (k : Z) :
  0 <= k -> diag_history (k + 1) = [mk_ofs k k false].
Proof.
  intros Hk. unfold diag_history.
  replace (k + 1 =? 0) with false by (symmetry; lia).
  now replace (k + 1 - 1) with k by lia.
Qed.

Lemma loop_body_diag (k : Z) :
  0 <= k < len s ->
  loop_body max_offset 0 s s (diag k)
  = Continue (if k + 1 <? len s then diag (k + 1) else (diag_end s)).
Proof.
  intros Hk. unfold loop_body, advance.
  cbn [diag src_cur tar_cur]. rewrite chars_eq_refl by exact Hk.
  unfold match_step. cbn [src_cur tar_cur trans offset_arr lcss local_cs].
  rewrite scan_offsets_diag. cbn [app Z.eqb negb andb].
  unfold end_clause, bump.
  cbn [diag src_cur tar_cur trans offset_arr lcss local_cs].
  rewrite <- (diag_history_succ k) by lia.
  destruct (k + 1 <? len s) eqn:E.
  - replace (k + 1 >=? len s) with false by (symmetry; lia).
    reflexivity.
  - replace (k + 1 >=? len s) with true by (symmetry; lia).
    cbn [orb]. unfold diag_end.
    replace (len s) with (k + 1) by lia.
    now rewrite Z.min_id, Z.add_0_l.
Qed.

Lemma scan_cond_false (max_distance : Z) (t : list ascii)
  (fuel : nat) (st : state) :
  loop_cond s t st = false ->
  scan max_offset max_distance s t fuel st = Finished st.
Proof. intros H. destruct fuel; cbn [scan]; now rewrite H. Qed.

Lemma scan_diag (fuel : nat) :
  forall k, 0 <= k -> Z.of_nat fuel = len s - k -> (0 < fuel)%nat ->
  scan max_offset 0 s s fuel (diag k) = Finished (diag_end s).
Proof.
  induction fuel as [|fuel IH]; intros k Hk Hf Hpos; [lia|].
  cbn [scan].
  replace (loop_cond s s (diag k)) with true
    by (symmetry; apply loop_cond_true; cbn [diag src_cur tar_cur]; lia).
  rewrite loop_body_diag by lia.
  destruct (k + 1 <? len s) eqn:E.
  - apply IH; lia.
  - apply scan_cond_false. unfold loop_cond, diag_end.
    cbn [src_cur tar_cur]. rewrite Z.ltb_irrefl. reflexivity.
Qed.

(** The loop of a self-comparison ends with no transposition counted and
    every character counted as common. *)
Lemma scan_self :
  exists st,
    scan max_offset 0 s s (iterations_bound s s) init = Finished st /\
    trans st = 0 /\ lcss st + local_cs st = len s.
Proof.
  destruct (Z.eq_dec (len s) 0) as [H0|Hn].
  - exists init. split; [|split; [reflexivity|cbn; lia]].
    apply scan_cond_false. unfold loop_cond, init.
    cbn [src_cur tar_cur]. now rewrite H0.
  - assert (Hlen : 0 < len s) by (unfold len in *; lia).
    exists (diag_end s). split; [|unfold diag_end; cbn; lia].
    replace (iterations_bound s s)
      with (Z.to_nat (len s) + Z.to_nat (len s + 1))%nat
      by (unfold iterations_bound; lia).
    change init with (diag 0).
    rewrite scan_fuel_mono.
    + apply (scan_diag (Z.to_nat (len s)) 0); lia.
    + rewrite (scan_diag (Z.to_nat (len s)) 0); [discriminate|lia|lia|lia].
Qed.

End SelfComparison.

(** C5. For every string [s] and every [max_offset], with
    [max_distance = 0], [dist_abs(s, s)] returns 0; the scan counts no
    transposition, and its common-subsequence total (the value of [lcss]
    after line 175) is the length of [s]. *)
Theorem dist_abs_self (max_offset : Z) (s : string) :
  dist_abs max_offset 0 s s = Returned 0 /\
  exists st,
    scan max_offset 0 (list_ascii_of_string s) (list_ascii_of_string s)
         (iterations_bound (list_ascii_of_string s)
                           (list_ascii_of_string s)) init
    = Finished st /\
    trans st = 0 /\
    lcss st + local_cs st = len (list_ascii_of_string s).
Proof.
  destruct (scan_self max_offset (list_ascii_of_string s))
    as (st & Hscan & Htr & Hl).
  split; [|exists st; auto].
  unfold dist_abs, dist_abs_fuel.
  destruct (list_ascii_of_string s) as [|a l] eqn:E; [reflexivity|].
  rewrite Hscan. unfold final_distance, round.
  rewrite Htr, Hl, Z.max_id. f_equal. lia.
Qed.

(** ** Empty inputs *)

Lemma length_list_ascii_of_string (s : string) :
  List.length (list_ascii_of_string s) = String.length s.
Proof. induction s as [|a s IH]; simpl; congruence. Qed.

(** C6. [dist_abs('', t)] returns [len(t)] and [dist_abs(s, '')] returns
    [len(s)], for every [max_offset] and [max_distance]; both are returned
    before the scan loop: the result is the same whatever number of loop
    iterations is allowed, none included. *)
Theorem dist_abs_empty (max_offset max_distance : Z) (s t : string) :
  dist_abs max_offset max_distance "" t
  = Returned (Z.of_nat (String.length t)) /\
  dist_abs max_offset max_distance s ""
  = Returned (Z.of_nat (String.length s)) /\
  forall fuel,
    dist_abs_fuel max_offset max_distance [] (list_ascii_of_string t) fuel
    = Returned (Z.of_nat (String.length t)) /\
    dist_abs_fuel max_offset max_distance (list_ascii_of_string s) [] fuel
    = Returned (Z.of_nat (String.length s)).
Proof.
  assert (Ht : forall fuel,
    dist_abs_fuel max_offset max_distance [] (list_ascii_of_string t) fuel
    = Returned (Z.of_nat (String.length t))).
  { intros fuel. unfold dist_abs_fuel, len.
    now rewrite length_list_ascii_of_string. }
  assert (Hs : forall fuel,
    dist_abs_fuel max_offset max_distance (list_ascii_of_string s) [] fuel
    = Returned (Z.of_nat (String.length s))).
  { intros fuel. unfold dist_abs_fuel, len.
    rewrite <- length_list_ascii_of_string.
    now destruct (list_ascii_of_string s). }
  split; [apply Ht|]. split; [apply Hs|]. intros fuel. split; auto.
Qed.

(** ** The docstring examples *)

(** C2. With the default parameters ([max_offset = 5], [max_distance = 0])
    [dist_abs] returns 1 for ('cat', 'hat'), 2 for ('Niall', 'Neil') and 2
    for ('ATCG', 'TAGC'); for ('aluminum', 'Catalan') it returns 5, where
    the docstring has 3. *)
Theorem dist_abs_docstring_examples :
  dist_abs 5 0 "cat" "hat" = Returned 1 /\
  dist_abs 5 0 "Niall" "Neil" = Returned 2 /\
  dist_abs 5 0 "aluminum" "Catalan" = Returned 5 /\
  dist_abs 5 0 "ATCG" "TAGC" = Returned 2.
Proof. repeat split; vm_compute; reflexivity. Qed.

(** ** The offset history in a matching step *)

Lemma scan_offsets_no_overlap (sc tc tr : Z) (arr : list ofs) :
  (forall e, In e arr -> overlapping sc tc e = false) ->
  scan_offsets sc tc tr arr
  = (false, tr, filter (fun e => negb (superseded sc tc e)) arr).
Proof.
  induction arr as [|o rest IH]; intros H; [reflexivity|].
  cbn [scan_offsets filter].
  pose proof (H o (or_introl eq_refl)) as Ho. unfold overlapping in Ho.
  rewrite Ho. unfold superseded at 1.
  rewrite IH by (intros e He; apply H; now right).
  destruct ((sc >? o_tar_cur o) && (tc >? o_src_cur o)); reflexivity.
Qed.

Lemma scan_offsets_first_overlap
  (sc tc tr : Z) (pre post : list ofs) (o : ofs) :
  (forall e, In e pre -> overlapping sc tc e = false) ->
  overlapping sc tc o = true ->
  scan_offsets sc tc tr (pre ++ o :: post)
  = (wider_gap sc tc o,
     (if wider_gap sc tc o || negb (o_trans o) then tr + 1 else tr),
     filter (fun e => negb (superseded sc tc e)) pre
     ++ mk_ofs (o_src_cur o) (o_tar_cur o)
               (o_trans o || negb (wider_gap sc tc o))
     :: post).
Proof.
  intros Hpre Ho. induction pre as [|p pre IH].
  - cbn [app scan_offsets filter]. unfold overlapping in Ho. rewrite Ho.
    unfold wider_gap. destruct o as [os ot ox]; cbn [o_src_cur o_tar_cur o_trans].
    destruct (Z.abs (tc - sc) >=? Z.abs (ot - os)); [now rewrite orb_false_r|].
    destruct ox; reflexivity.
  - cbn [app scan_offsets filter].
    pose proof (Hpre p (or_introl eq_refl)) as Hp. unfold overlapping in Hp.
    rewrite Hp. unfold superseded at 1.
    rewrite IH by (intros e He; apply Hpre; now right).
    destruct ((sc >? o_tar_cur p) && (tc >? o_src_cur p)); reflexivity.
Qed.

(** C7, as amended.  In a matching step at the cursor pair [(sc, tc)], let
    [o] be the first entry of the history that overlaps the new pair, [pre]
    the entries before it and [post] the entries after it.  The new pair is
    classified as a transposition exactly when its gap is at least the gap
    of [o].  The counter is incremented once if the new pair is so
    classified, or else if the flag of [o] is clear, and then that flag is
    set; no flag is ever cleared.  The entries of [pre] whose cursor ranges
    are entirely below the new pair are removed; [o] and the entries of
    [post] stay.  When no entry overlaps, the new pair is not a
    transposition, the counter is unchanged, and all entirely lower entries
    are removed.  In both cases the new pair is appended with its
    classification as flag. *)
Theorem match_step_history
  (sc tc l c tr : Z) (pre post : list ofs) (o : ofs) :
  (forall e, In e pre -> overlapping sc tc e = false) ->
  overlapping sc tc o = true ->
  match_step (mk_state sc tc l c tr (pre ++ o :: post))
  = mk_state sc tc l (c + 1)
      (if wider_gap sc tc o || negb (o_trans o) then tr + 1 else tr)
      ((filter (fun e => negb (superseded sc tc e)) pre
        ++ mk_ofs (o_src_cur o) (o_tar_cur o)
                  (o_trans o || negb (wider_gap sc tc o))
        :: post)
       ++ [mk_ofs sc tc (wider_gap sc tc o)])
  /\
  match_step (mk_state sc tc l c tr pre)
  = mk_state sc tc l (c + 1) tr
      (filter (fun e => negb (superseded sc tc e)) pre
       ++ [mk_ofs sc tc false]).
Proof.
  intros Hpre Ho. unfold match_step.
  cbn [src_cur tar_cur lcss local_cs trans offset_arr].
  rewrite (scan_offsets_first_overlap sc tc tr pre post o Hpre Ho).
  rewrite (scan_offsets_no_overlap sc tc tr pre Hpre).
  split; reflexivity.
Qed.

(** An instance: before the overlapping entry (6, 3) the history has one
    entry entirely below the new pair (5, 6) and one that is not. *)
Lemma match_step_history_witness :
  let pre := [mk_ofs 0 1 false; mk_ofs 2 5 false] in
  let o := mk_ofs 6 3 false in
  let post := [mk_ofs 1 1 false] in
  (forall e, In e pre -> overlapping 5 6 e = false) /\
  overlapping 5 6 o = true /\
  match_step (mk_state 5 6 2 1 0 (pre ++ o :: post))
  = mk_state 5 6 2 2 1
      [mk_ofs 2 5 false; mk_ofs 6 3 true; mk_ofs 1 1 false;
       mk_ofs 5 6 false] /\
  match_step (mk_state 5 6 2 1 0 pre)
  = mk_state 5 6 2 2 0 [mk_ofs 2 5 false; mk_ofs 5 6 false].
Proof.
  intros pre o post.
  assert (Hpre : forall e, In e pre -> overlapping 5 6 e = false).
  { intros e [<-|[<-|[]]]; reflexivity. }
  assert (Ho : overlapping 5 6 o = true) by reflexivity.
  split; [exact Hpre|]. split; [exact Ho|].
  exact (match_step_history 5 6 2 1 0 pre post o Hpre Ho).
Defined.

(** C7, as stated, fails.  In the scan of ('ab', 'bab') with the default
    parameters, the fourth iteration is a matching step at the pair (1, 2);
    the history holds the entry (1, 0), whose cursor ranges are entirely
    below the new pair, and the step keeps it, because it is also the first
    overlapping entry. *)
Lemma match_step_keeps_superseded_entry :
  let src := list_ascii_of_string "ab" in
  let tar := list_ascii_of_string "bab" in
  exists st e,
    iterations 5 0 src tar 3 init = Some st /\
    loop_cond src tar st = true /\
    chars_eq src tar (src_cur st) (tar_cur st) = Some true /\
    In e (offset_arr st) /\
    src_cur st > o_tar_cur e /\ tar_cur st > o_src_cur e /\
    In e (offset_arr (match_step st)).
Proof.
  intros src tar.
  exists (mk_state 1 2 1 0 0 [mk_ofs 1 0 false]), (mk_ofs 1 0 false).
  repeat split; try reflexivity.
  - left; reflexivity.
  - left; reflexivity.
Qed.

(** * Further properties of Sift4 Extended *)

(** ** Transpositions never outnumber the matched characters *)

(** A matching step raises the transposition counter by one at most. *)
Lemma scan_offsets_trans_le (sc tc tr : Z) (arr : list ofs) :
  snd (fst (scan_offsets sc tc tr arr)) <= tr + 1.
Proof.
  induction arr as [|o rest IH]; simpl; [lia|].
  destruct ((sc <=? o_src_cur o) || (tc <=? o_tar_cur o)).
  - destruct (Z.abs (tc - sc) >=? Z.abs (o_tar_cur o - o_src_cur o));
      [|destruct (negb (o_trans o))]; simpl; lia.
  - destruct ((sc >? o_tar_cur o) && (tc >? o_src_cur o)); [exact IH|].
    destruct (scan_offsets sc tc tr rest) as [[b t] r]. simpl in *. lia.
Qed.

Section ScanInvariants.

Variable max_offset : Z.
Variable max_distance : Z.
Variable src tar : list ascii.

(** Lines 115-163 keep the transposition counter below the number of
    characters counted as common. *)
Lemma advance_matches (st st1 : state) :
  advance max_offset src tar st = Some st1 ->
  trans st <= lcss st + local_cs st ->
  trans st1 <= lcss st1 + local_cs st1.
Proof.
  unfold advance.
  destruct (chars_eq src tar (src_cur st) (tar_cur st)) as [[|]|];
    [| |discriminate].
  - intros H Hle. injection H as <-. unfold bump, match_step.
    pose proof (scan_offsets_trans_le (src_cur st) (tar_cur st) (trans st)
                  (offset_arr st)) as Hm.
    destruct (scan_offsets (src_cur st) (tar_cur st) (trans st)
                (offset_arr st)) as [[b t] r].
    cbn [fst snd lcss local_cs trans] in *. lia.
  - unfold mismatch_step.
    destruct (if negb (src_cur st =? tar_cur st)
              then (Z.min (src_cur st) (tar_cur st),
                    Z.min (src_cur st) (tar_cur st))
              else (src_cur st, tar_cur st)) as [sc tc].
    destruct (look_ahead src tar sc tc 0 (Z.to_nat max_offset))
      as [[sc' tc']|]; [|discriminate].
    cbn [option_map]. intros H Hle. injection H as <-.
    cbn [bump lcss local_cs trans]. lia.
Qed.

Lemma end_clause_matches (st : state) :
  trans st <= lcss st + local_cs st ->
  trans (end_clause src tar st)
  <= lcss (end_clause src tar st) + local_cs (end_clause src tar st).
Proof.
  unfold end_clause.
  destruct ((src_cur st >=? len src) || (tar_cur st >=? len tar));
    cbn [lcss local_cs trans]; lia.
Qed.

(** A property of the state that every full iteration keeps, started from
    a state that satisfies the scan invariant, holds when the loop is
    left. *)
Lemma scan_preserves (P : state -> Prop) :
  (forall st st',
     scan_inv src tar st -> P st -> loop_cond src tar st = true ->
     loop_body max_offset max_distance src tar st = Continue st' -> P st') ->
  forall fuel st st',
    scan_inv src tar st -> P st ->
    scan max_offset max_distance src tar fuel st = Finished st' ->
    scan_inv src tar st' /\ loop_cond src tar st' = false /\ P st'.
Proof.
  intros Hstep. induction fuel as [|fuel IH]; intros st st' Hinv HP H;
    cbn [scan] in H; destruct (loop_cond src tar st) eqn:Hc;
    try discriminate.
  - injection H as <-. auto.
  - pose proof (loop_body_progress max_offset max_distance src tar st
                  Hinv Hc) as Hp.
    destruct (loop_body max_offset max_distance src tar st) as [st1|v|e]
      eqn:Hb; try discriminate.
    apply (IH st1 st'); [apply Hp|apply (Hstep st st1); auto|exact H].
  - injection H as <-. auto.
Qed.

Lemma loop_body_matches (st st' : state) :
  loop_body max_offset max_distance src tar st = Continue st' ->
  trans st <= lcss st + local_cs st ->
  trans st' <= lcss st' + local_cs st'.
Proof.
  unfold loop_body.
  destruct (advance max_offset src tar st) as [st1|] eqn:Ha;
    [|discriminate].
  destruct (negb (max_distance =? 0)
            && (temporary_distance st1 >=? max_distance));
    [discriminate|].
  intros H Hle. injection H as <-.
  apply end_clause_matches. now apply (advance_matches st st1).
Qed.

End ScanInvariants.

(** Without a distance bound the loop is never left through [return]. *)
Lemma scan_unbounded_finishes
  (max_offset : Z) (src tar : list ascii) (fuel : nat) :
  forall st v, scan max_offset 0 src tar fuel st <> Exited v.
Proof.
  induction fuel as [|fuel IH]; intros st v; cbn [scan];
    destruct (loop_cond src tar st); try discriminate.
  unfold loop_body.
  destruct (advance max_offset src tar st) as [st1|]; [|discriminate].
  cbn [Z.eqb negb andb]. apply IH.
Qed.

(** The loop of an unbounded scan of two non-empty strings ends in a state
    that satisfies the scan invariant and any property that the iterations
    keep. *)
Lemma scan_unbounded_final
  (max_offset : Z) (src tar : list ascii) (P : state -> Prop) :
  P init ->
  (forall st st',
     scan_inv src tar st -> P st -> loop_cond src tar st = true ->
     loop_body max_offset 0 src tar st = Continue st' -> P st') ->
  exists st,
    scan max_offset 0 src tar (iterations_bound src tar) init = Finished st /\
    scan_inv src tar st /\ loop_cond src tar st = false /\ P st.
Proof.
  intros H0 Hstep.
  pose proof (scan_enough_fuel max_offset 0 src tar
                (iterations_bound src tar) init (init_inv src tar)
                (init_measure src tar)) as H.
  destruct (scan max_offset 0 src tar (iterations_bound src tar) init)
    as [st|v|e|] eqn:E; try contradiction.
  - exists st. split; [reflexivity|].
    apply (scan_preserves max_offset 0 src tar P Hstep
             (iterations_bound src tar) init st (init_inv src tar) H0 E).
  - exfalso. exact (scan_unbounded_finishes _ _ _ _ _ _ E).
Qed.

(** X1. Without a distance bound, the distance lies between the difference
    of the two lengths and the length of the longer string. *)
Theorem dist_abs_length_bounds (max_offset : Z) (src tar : string) :
  exists v,
    dist_abs max_offset 0 src tar = Returned v /\
    Z.abs (Z.of_nat (String.length src) - Z.of_nat (String.length tar)) <= v
    /\ v <= Z.max (Z.of_nat (String.length src))
                  (Z.of_nat (String.length tar)).
Proof.
  unfold dist_abs, dist_abs_fuel.
  rewrite <- !length_list_ascii_of_string.
  set (s := list_ascii_of_string src). set (t := list_ascii_of_string tar).
  fold (len s) (len t).
  destruct s as [|a s'] eqn:Es.
  { eexists; split; [reflexivity|]. unfold len; cbn [List.length]. lia. }
  destruct t as [|b t'] eqn:Et.
  { eexists; split; [reflexivity|]. unfold len; cbn [List.length]. lia. }
  rewrite <- Es, <- Et.
  destruct (scan_unbounded_final max_offset s t
              (fun st => trans st <= lcss st + local_cs st))
    as (st & Hscan & Hinv & _ & Hm).
  - cbn. lia.
  - intros st st' _ HP _ Hb.
    exact (loop_body_matches max_offset 0 s t st st' Hb HP).
  - rewrite Hscan. eexists; split; [reflexivity|].
    unfold final_distance, round, scan_inv in *. lia.
Qed.

(** ** A distance bound beyond the combined length *)

Section LargeBound.

Variable max_offset : Z.
Variable K : Z.
Variable src tar : list ascii.
Hypothesis K_large : len src + len tar < K.

Lemma loop_body_large_bound (st : state) :
  scan_inv src tar st -> trans st <= lcss st + local_cs st ->
  loop_cond src tar st = true ->
  loop_body max_offset K src tar st = loop_body max_offset 0 src tar st.
Proof.
  intros Hinv Hm Hc.
  destruct (advance_progress max_offset src tar st Hinv Hc)
    as (st1 & Ha & Hi1 & _).
  pose proof (advance_matches max_offset src tar st st1 Ha Hm) as Hm1.
  unfold loop_body. rewrite Ha. cbn [Z.eqb negb andb].
  replace (temporary_distance st1 >=? K) with false;
    [now rewrite andb_false_r|].
  symmetry. unfold temporary_distance, scan_inv in *. lia.
Qed.

Lemma scan_large_bound (fuel : nat) :
  forall st,
  scan_inv src tar st -> trans st <= lcss st + local_cs st ->
  scan max_offset K src tar fuel st = scan max_offset 0 src tar fuel st.
Proof.
  induction fuel as [|fuel IH]; intros st Hinv Hm; cbn [scan];
    [reflexivity|].
  destruct (loop_cond src tar st) eqn:Hc; [|reflexivity].
  rewrite (loop_body_large_bound st Hinv Hm Hc).
  pose proof (loop_body_progress max_offset 0 src tar st Hinv Hc) as Hp.
  destruct (loop_body max_offset 0 src tar st) as [st1|v|e] eqn:Hb;
    try reflexivity.
  apply IH; [apply Hp|].
  exact (loop_body_matches max_offset 0 src tar st st1 Hb Hm).
Qed.

End LargeBound.

(** X2. A distance bound larger than the combined length of the two
    strings never cuts the scan short: the result is the unbounded one. *)
Theorem dist_abs_large_bound (max_offset K : Z) (src tar : string) :
  Z.of_nat (String.length src) + Z.of_nat (String.length tar) < K ->
  dist_abs max_offset K src tar = dist_abs max_offset 0 src tar.
Proof.
  intros HK. unfold dist_abs, dist_abs_fuel.
  rewrite <- !length_list_ascii_of_string in HK.
  set (s := list_ascii_of_string src) in *.
  set (t := list_ascii_of_string tar) in *.
  destruct s as [|a s'] eqn:Es; [reflexivity|].
  destruct t as [|b t'] eqn:Et; [reflexivity|].
  rewrite <- Es, <- Et in *.
  rewrite (scan_large_bound max_offset K s t HK (iterations_bound s t) init
             (init_inv s t)); [reflexivity|cbn; lia].
Qed.

(** An instance: a bound of 16 on ('aluminum', 'Catalan'). *)
Lemma dist_abs_large_bound_witness :
  Z.of_nat (String.length "aluminum") + Z.of_nat (String.length "Catalan")
  < 16 /\
  dist_abs 5 16 "aluminum" "Catalan" = dist_abs 5 0 "aluminum" "Catalan".
Proof.
  assert (H : Z.of_nat (String.length "aluminum")
              + Z.of_nat (String.length "Catalan") < 16)
    by (vm_compute; reflexivity).
  split; [exact H|].
  exact (dist_abs_large_bound 5 16 "aluminum" "Catalan" H).
Defined.

(** ** Strings that agree on their common length *)

Section Agreeing.

Variable max_offset : Z.
Variable K : Z.
Variable s t : list ascii.
Variable n : Z.
Hypothesis n_min : n = Z.min (len s) (len t).
Hypothesis agree : forall k, 0 <= k < n -> chars_eq s t k k = Some true.

(** An iteration with both cursors at [k]: a matching step that evicts the
    pair matched before; the provisional estimate is [k + 1]. *)
Lemma loop_body_agreeing (k : Z) :
  0 <= k < n ->
  loop_body max_offset K s t (diag k)
  = if negb (K =? 0) && (k + 1 >=? K) then Exit (k + 1)
    else Continue (if k + 1 <? n then diag (k + 1) else diag_stop n).
Proof.
  intros Hk. unfold loop_body, advance.
  cbn [diag src_cur tar_cur]. rewrite agree by exact Hk.
  unfold match_step. cbn [src_cur tar_cur trans offset_arr lcss local_cs].
  rewrite scan_offsets_diag. cbn [app].
  unfold temporary_distance, round, end_clause, bump.
  cbn [diag src_cur tar_cur trans offset_arr lcss local_cs].
  rewrite <- (diag_history_succ k) by lia.
  rewrite Z.max_id.
  replace (k + 1 - 0 + 0) with (k + 1) by lia.
  destruct (negb (K =? 0) && (k + 1 >=? K)); [reflexivity|].
  destruct (k + 1 <? n) eqn:E.
  - replace (k + 1 >=? len s) with false by (symmetry; lia).
    replace (k + 1 >=? len t) with false by (symmetry; lia).
    reflexivity.
  - replace ((k + 1 >=? len s) || (k + 1 >=? len t)) with true
      by (symmetry; apply orb_true_iff; lia).
    unfold diag_stop. replace n with (k + 1) by lia.
    now rewrite Z.min_id, Z.add_0_l.
Qed.

Lemma loop_cond_diag_stop : loop_cond s t (diag_stop n) = false.
Proof.
  unfold loop_cond, diag_stop. cbn [src_cur tar_cur].
  apply andb_false_iff. lia.
Qed.

(** The scan from the diagonal: it stops at the bound [K] if the common
    length reaches it, and at the end of the shorter string otherwise. *)
Lemma scan_agreeing (fuel : nat) :
  forall k,
  0 <= k -> Z.of_nat fuel = n - k -> (0 < fuel)%nat -> K = 0 \/ k < K ->
  scan max_offset K s t fuel (diag k)
  = if negb (K =? 0) && (K <=? n) then Exited K
    else Finished (diag_stop n).
Proof.
  induction fuel as [|fuel IH]; intros k Hk Hf Hpos HK; [lia|].
  cbn [scan].
  replace (loop_cond s t (diag k)) with true
    by (symmetry; apply loop_cond_true; cbn [diag src_cur tar_cur]; lia).
  rewrite loop_body_agreeing by lia.
  destruct (Z.eq_dec K 0) as [->|HK0].
  - cbn [Z.eqb negb andb].
    destruct (k + 1 <? n) eqn:E.
    + rewrite (IH (k + 1)); [reflexivity|lia|lia|lia|now left].
    + destruct fuel; cbn [scan]; now rewrite loop_cond_diag_stop.
  - replace (K =? 0) with false by (symmetry; lia). cbn [negb andb].
    destruct (k + 1 >=? K) eqn:EK.
    + replace (K <=? n) with true by (symmetry; lia). f_equal. lia.
    + destruct (k + 1 <? n) eqn:E.
      * rewrite (IH (k + 1)); [|lia|lia|lia|right; lia].
        replace (K =? 0) with false by (symmetry; lia). reflexivity.
      * replace (K <=? n) with false by (symmetry; lia).
        destruct fuel; cbn [scan]; now rewrite loop_cond_diag_stop.
Qed.

(** The same from the initial state, with the iterations [dist_abs]
    allows. *)
Lemma scan_agreeing_init :
  0 < n -> 0 <= K ->
  scan max_offset K s t (iterations_bound s t) init
  = if negb (K =? 0) && (K <=? n) then Exited K
    else Finished (diag_stop n).
Proof.
  intros Hn HK.
  replace (iterations_bound s t)
    with (Z.to_nat n + Z.to_nat (n + 1))%nat
    by (unfold iterations_bound; lia).
  change init with (diag 0).
  assert (E : scan max_offset K s t (Z.to_nat n) (diag 0)
              = if negb (K =? 0) && (K <=? n) then Exited K
                else Finished (diag_stop n)).
  { apply scan_agreeing; lia. }
  rewrite scan_fuel_mono; [exact E|].
  rewrite E. destruct (negb (K =? 0) && (K <=? n)); discriminate.
Qed.

End Agreeing.

Lemma list_ascii_of_string_app (p u : string) :
  list_ascii_of_string (p ++ u)
  = (list_ascii_of_string p ++ list_ascii_of_string u)%list.
Proof. induction p as [|a p IH]; cbn; [reflexivity|now rewrite IH]. Qed.

Lemma py_getitem_app_l {A : Type} (p u : list A) (k : Z) :
  0 <= k < len p -> py_getitem (p ++ u)%list k = py_getitem p k.
Proof.
  intros [Hlo Hhi]. unfold py_getitem.
  replace (0 <=? k) with true by (symmetry; lia).
  apply nth_error_app1. unfold len in Hhi. lia.
Qed.

Lemma chars_eq_prefix_l (p u : list ascii) (k : Z) :
  0 <= k < len p -> chars_eq p (p ++ u)%list k k = Some true.
Proof.
  intros Hk. unfold chars_eq. rewrite py_getitem_app_l by exact Hk.
  destruct (py_getitem_in_range p k Hk) as [x ->].
  now rewrite Ascii.eqb_refl.
Qed.

Lemma chars_eq_prefix_r (p u : list ascii) (k : Z) :
  0 <= k < len p -> chars_eq (p ++ u)%list p k k = Some true.
Proof.
  intros Hk. unfold chars_eq. rewrite py_getitem_app_l by exact Hk.
  destruct (py_getitem_in_range p k Hk) as [x ->].
  now rewrite Ascii.eqb_refl.
Qed.

Lemma len_app {A : Type} (p u : list A) : len (p ++ u)%list = len p + len u.
Proof. unfold len. rewrite length_app. lia. Qed.

(** [dist_abs] on two non-empty strings is the scan. *)
Lemma dist_abs_fuel_nonempty
  (max_offset max_distance : Z) (s t : list ascii) (fuel : nat) :
  0 < len s -> 0 < len t ->
  dist_abs_fuel max_offset max_distance s t fuel
  = match scan max_offset max_distance s t fuel init with
    | Finished st => Returned (final_distance s t st)
    | Exited v => Returned v
    | Failed e => Raised e
    | Exhausted => OutOfFuel
    end.
Proof.
  unfold dist_abs_fuel, len.
  destruct s; [cbn; lia|]. destruct t; [cbn; lia|]. reflexivity.
Qed.

Lemma dist_abs_fuel_prefix (max_offset : Z) (p u : list ascii) :
  dist_abs_fuel max_offset 0 p (p ++ u)%list
    (iterations_bound p (p ++ u)%list) = Returned (len u) /\
  dist_abs_fuel max_offset 0 (p ++ u)%list p
    (iterations_bound (p ++ u)%list p) = Returned (len u).
Proof.
  assert (Hu : 0 <= len u) by (unfold len; lia).
  destruct (Z.eq_dec (len p) 0) as [H0|Hn].
  { assert (p = []) as -> by (destruct p; [reflexivity|cbn in H0; lia]).
    cbn [app]. unfold dist_abs_fuel. split; [reflexivity|].
    now destruct u. }
  assert (Hp : 0 < len p) by (unfold len in *; lia).
  pose proof (len_app p u) as Hl.
  split.
  - rewrite dist_abs_fuel_nonempty by lia.
    rewrite (scan_agreeing_init max_offset 0 p (p ++ u)%list (len p));
      [|lia|intros k Hk; now apply chars_eq_prefix_l|lia|lia].
    cbn [Z.eqb negb andb]. f_equal.
    unfold final_distance, round, diag_stop.
    cbn [lcss local_cs trans]. lia.
  - rewrite dist_abs_fuel_nonempty by lia.
    rewrite (scan_agreeing_init max_offset 0 (p ++ u)%list p (len p));
      [|lia|intros k Hk; now apply chars_eq_prefix_r|lia|lia].
    cbn [Z.eqb negb andb]. f_equal.
    unfold final_distance, round, diag_stop.
    cbn [lcss local_cs trans]. lia.
Qed.

(** X3. When one string is the other followed by further characters, the
    unbounded distance is the number of those characters, in either
    order of the arguments and for every [max_offset]. *)
Theorem dist_abs_prefix (max_offset : Z) (p u : string) :
  dist_abs max_offset 0 p (p ++ u) = Returned (Z.of_nat (String.length u)) /\
  dist_abs max_offset 0 (p ++ u) p = Returned (Z.of_nat (String.length u)).
Proof.
  unfold dist_abs. rewrite list_ascii_of_string_app.
  rewrite <- length_list_ascii_of_string.
  apply dist_abs_fuel_prefix.
Qed.

(** X4. Under a distance bound [K > 0], comparing a string with itself
    gives [K] as soon as the string has at least [K] characters, and 0 only
    for shorter strings: the provisional estimate does not count the
    characters of the matching run in progress. *)
Theorem dist_abs_self_bounded (max_offset K : Z) (s : string) :
  0 < K ->
  dist_abs max_offset K s s
  = Returned (if K <=? Z.of_nat (String.length s) then K else 0).
Proof.
  intros HK. unfold dist_abs.
  rewrite <- length_list_ascii_of_string.
  set (l := list_ascii_of_string s). fold (len l).
  destruct (Z.eq_dec (len l) 0) as [H0|Hn].
  { assert (l = []) as -> by (destruct l; [reflexivity|cbn in H0; lia]).
    cbn. now replace (K <=? 0) with false by (symmetry; lia). }
  assert (Hl : 0 < len l) by (unfold len in *; lia).
  rewrite dist_abs_fuel_nonempty by lia.
  rewrite (scan_agreeing_init max_offset K l l (len l));
    [|lia|intros k Hk; now apply chars_eq_refl|lia|lia].
  replace (K =? 0) with false by (symmetry; lia). cbn [negb andb].
  destruct (K <=? len l); [reflexivity|].
  f_equal. unfold final_distance, round, diag_stop.
  cbn [lcss local_cs trans]. lia.
Qed.

(** An instance: 'abc' against itself under the bound 2. *)
Lemma dist_abs_self_bounded_witness :
  0 < 2 /\ dist_abs 5 2 "abc" "abc" = Returned 2.
Proof.
  assert (H : 0 < 2) by lia.
  split; [exact H|].
  exact (dist_abs_self_bounded 5 2 "abc" H).
Defined.

(** ** No look-ahead *)

Lemma nth_error_combine {A B : Type} (s : list A) (t : list B) :
  forall i x y,
  nth_error s i = Some x -> nth_error t i = Some y ->
  nth_error (combine s t) i = Some (x, y).
Proof.
  revert t. induction s as [|a s IH]; intros t i x y Hs Ht.
  - destruct i; discriminate.
  - destruct t as [|b t]; [destruct i; discriminate|].
    destruct i as [|i]; cbn in *.
    + congruence.
    + now apply IH.
Qed.

Lemma firstn_succ_nth_error {A : Type} (l : list A) :
  forall i x, nth_error l i = Some x -> firstn (S i) l = (firstn i l ++ [x])%list.
Proof.
  induction l as [|a l IH]; intros i x H.
  - destruct i; discriminate.
  - destruct i as [|i]; cbn in *.
    + congruence.
    + f_equal. now apply IH.
Qed.

(** The agreements among the first [k + 1] positions. *)
Lemma agreements_step (s t : list ascii) (k : Z) (b : bool) :
  0 <= k -> chars_eq s t k k = Some b ->
  agreements (firstn (Z.to_nat (k + 1)) s) (firstn (Z.to_nat (k + 1)) t)
  = agreements (firstn (Z.to_nat k) s) (firstn (Z.to_nat k) t)
    + (if b then 1 else 0).
Proof.
  intros Hk. unfold chars_eq, py_getitem.
  replace (0 <=? k) with true by (symmetry; lia).
  destruct (nth_error s (Z.to_nat k)) as [x|] eqn:Ex; [|discriminate].
  destruct (nth_error t (Z.to_nat k)) as [y|] eqn:Ey; [|discriminate].
  intros H. injection H as <-.
  unfold agreements. rewrite <- !combine_firstn.
  replace (Z.to_nat (k + 1)) with (S (Z.to_nat k)) by lia.
  rewrite (firstn_succ_nth_error _ _ _ (nth_error_combine s t _ x y Ex Ey)).
  rewrite filter_app, len_app. cbn [filter fst snd].
  destruct (Ascii.eqb x y); reflexivity.
Qed.

Lemma agreements_all (s t : list ascii) (k : Z) :
  k = Z.min (len s) (len t) ->
  agreements (firstn (Z.to_nat k) s) (firstn (Z.to_nat k) t)
  = agreements s t.
Proof.
  intros Hk. unfold agreements. rewrite <- combine_firstn.
  rewrite firstn_all2; [reflexivity|].
  rewrite length_combine. unfold len in Hk. lia.
Qed.

Section NoLookAhead.

Variable max_offset : Z.
Variable s t : list ascii.
Hypothesis no_look_ahead : max_offset <= 0.

Lemma lockstep_end_clause (st : state) :
  lockstep s t st -> lockstep s t (end_clause s t st).
Proof.
  unfold lockstep, end_clause. intros (Hc & Ht & Hh & Hl).
  destruct ((src_cur st >=? len s) || (tar_cur st >=? len t));
    [|auto].
  cbn [src_cur tar_cur lcss local_cs trans offset_arr].
  rewrite <- Hc, Z.min_id. repeat split; auto; try apply Hh; auto. lia.
Qed.

Lemma lockstep_step (st st' : state) :
  scan_inv s t st -> lockstep s t st -> loop_cond s t st = true ->
  loop_body max_offset 0 s t st = Continue st' -> lockstep s t st'.
Proof.
  intros Hinv (Hc & Ht & Hh & Hl) Hcond.
  apply loop_cond_true in Hcond. destruct Hcond as [Hsc Htc].
  destruct Hinv as (Hs & _).
  unfold loop_body, advance.
  destruct (chars_eq_in_range s t (src_cur st) (tar_cur st)) as [b Hb];
    [lia|lia|].
  rewrite Hb.
  pose proof Hb as Hb'. rewrite <- Hc in Hb'.
  pose proof (agreements_step s t (src_cur st) b (proj1 Hs) Hb') as Hag.
  destruct b.
  - (* the characters match *)
    cbn [Z.eqb negb andb]. intros H. injection H as <-.
    apply lockstep_end_clause.
    unfold match_step.
    rewrite scan_offsets_no_overlap.
    2:{ intros e He. destruct (Hh e He) as [H1 H2]. unfold overlapping.
        apply orb_false_iff. lia. }
    unfold lockstep, bump.
    cbn [src_cur tar_cur lcss local_cs trans offset_arr].
    repeat split; try lia.
    + apply in_app_or in H. destruct H as [H|[<-|[]]].
      * apply filter_In in H. destruct (Hh e (proj1 H)). lia.
      * cbn. lia.
    + apply in_app_or in H. destruct H as [H|[<-|[]]].
      * apply filter_In in H. destruct (Hh e (proj1 H)). lia.
      * cbn. lia.
  - (* the characters differ *)
    unfold mismatch_step.
    replace (src_cur st =? tar_cur st) with true by (symmetry; lia).
    cbn [negb].
    replace (Z.to_nat max_offset) with 0%nat by lia.
    cbn [look_ahead option_map Z.eqb negb andb].
    intros H. injection H as <-.
    apply lockstep_end_clause.
    unfold lockstep, bump.
    cbn [src_cur tar_cur lcss local_cs trans offset_arr].
    repeat split; try lia.
    + destruct (Hh e H). lia.
    + destruct (Hh e H). lia.
Qed.

Lemma dist_abs_fuel_no_look_ahead :
  dist_abs_fuel max_offset 0 s t (iterations_bound s t)
  = Returned (Z.max (len s) (len t) - agreements s t).
Proof.
  destruct (Z.eq_dec (len s) 0) as [Hs|Hs].
  { assert (s = []) as Es by (destruct s; [reflexivity|cbn in Hs; lia]).
    subst s. unfold dist_abs_fuel. f_equal.
    unfold agreements, len. cbn. lia. }
  destruct (Z.eq_dec (len t) 0) as [Ht|Ht].
  { assert (t = []) as Et by (destruct t; [reflexivity|cbn in Ht; lia]).
    subst t. unfold dist_abs_fuel, agreements.
    rewrite combine_nil. destruct s; [reflexivity|].
    f_equal; unfold len; cbn [filter List.length]; lia. }
  rewrite dist_abs_fuel_nonempty by (unfold len in *; lia).
  destruct (scan_unbounded_final max_offset s t (lockstep s t))
    as (st & Hscan & Hinv & Hcond & (Hc & Htr & _ & Hl)).
  - unfold lockstep, init, agreements.
    cbn. repeat split; auto; contradiction.
  - exact lockstep_step.
  - rewrite Hscan. f_equal. unfold final_distance, round.
    rewrite Hl, Htr, agreements_all; [lia|].
    unfold loop_cond in Hcond. apply andb_false_iff in Hcond.
    unfold scan_inv in Hinv. lia.
Qed.

End NoLookAhead.

(** X5. With [max_offset <= 0] the scan never looks ahead, and the
    unbounded distance is the length of the longer string minus the number
    of positions at which the two strings carry the same character. *)
Theorem dist_abs_no_look_ahead (max_offset : Z) (src tar : string) :
  max_offset <= 0 ->
  dist_abs max_offset 0 src tar
  = Returned (Z.max (Z.of_nat (String.length src))
                    (Z.of_nat (String.length tar))
              - agreements (list_ascii_of_string src)
                           (list_ascii_of_string tar)).
Proof.
  intros H. unfold dist_abs.
  rewrite <- !length_list_ascii_of_string.
  now apply dist_abs_fuel_no_look_ahead.
Qed.

(** An instance: 'Niall' and 'Neil' agree at two positions. *)
Lemma dist_abs_no_look_ahead_witness :
  0 <= 0 /\ dist_abs 0 0 "Niall" "Neil" = Returned 3.
Proof.
  assert (H : 0 <= 0) by lia.
  split; [exact H|].
  rewrite (dist_abs_no_look_ahead 0 "Niall" "Neil" H). reflexivity.
Defined.

(** ** Distance zero *)

(** The pairs of the history after the scan of a matching step are pairs
    of the history before it. *)
Lemma scan_offsets_positions (sc tc tr : Z) (arr : list ofs) :
  forall e', In e' (snd (scan_offsets sc tc tr arr)) ->
  exists e, In e arr /\
    o_src_cur e' = o_src_cur e /\ o_tar_cur e' = o_tar_cur e.
Proof.
  induction arr as [|o rest IH]; intros e' H; cbn [scan_offsets] in H.
  - destruct H.
  - destruct ((sc <=? o_src_cur o) || (tc <=? o_tar_cur o)).
    + destruct (Z.abs (tc - sc) >=? Z.abs (o_tar_cur o - o_src_cur o));
        [|destruct (negb (o_trans o))]; cbn [snd] in H;
        (destruct H as [<-|H];
         [exists o; cbn; auto|exists e'; cbn; auto]).
    + destruct ((sc >? o_tar_cur o) && (tc >? o_src_cur o)).
      * destruct (IH e' H) as (e & He & Hp). exists e. cbn; auto.
      * destruct (scan_offsets sc tc tr rest) as [[b t'] r].
        cbn [snd] in *. destruct H as [<-|H].
        -- exists o. cbn; auto.
        -- destruct (IH e' H) as (e & He & Hp). exists e. cbn; auto.
Qed.

(** When no flag is set and the counter is not raised, no entry of the
    history overlaps the new pair. *)
Lemma scan_offsets_quiet (sc tc tr : Z) (arr : list ofs) :
  (forall e, In e arr -> o_trans e = false) ->
  snd (fst (scan_offsets sc tc tr arr)) = tr ->
  forall e, In e arr -> overlapping sc tc e = false.
Proof.
  induction arr as [|o rest IH]; intros Hfl Htr e He; [destruct He|].
  cbn [scan_offsets] in Htr.
  destruct ((sc <=? o_src_cur o) || (tc <=? o_tar_cur o)) eqn:Eo.
  - exfalso.
    destruct (Z.abs (tc - sc) >=? Z.abs (o_tar_cur o - o_src_cur o));
      [cbn in Htr; lia|].
    rewrite (Hfl o (or_introl eq_refl)) in Htr. cbn in Htr. lia.
  - assert (Hrest : snd (fst (scan_offsets sc tc tr rest)) = tr).
    { destruct ((sc >? o_tar_cur o) && (tc >? o_src_cur o)); [exact Htr|].
      destruct (scan_offsets sc tc tr rest) as [[b t'] r]. exact Htr. }
    destruct He as [<-|He]; [exact Eo|].
    apply IH; auto. intros x Hx. apply Hfl. now right.
Qed.

Lemma match_step_eq (st : state) :
  match_step st
  = mk_state (src_cur st) (tar_cur st) (lcss st) (local_cs st + 1)
      (snd (fst (scan_offsets (src_cur st) (tar_cur st) (trans st)
                   (offset_arr st))))
      (snd (scan_offsets (src_cur st) (tar_cur st) (trans st)
              (offset_arr st))
       ++ [mk_ofs (src_cur st) (tar_cur st)
             (fst (fst (scan_offsets (src_cur st) (tar_cur st) (trans st)
                          (offset_arr st))))]).
Proof.
  unfold match_step.
  now destruct (scan_offsets (src_cur st) (tar_cur st) (trans st)
                  (offset_arr st)) as [[b t'] r].
Qed.

(** Two strings of the same length that agree at every position are
    equal. *)
Lemma chars_eq_all (s t : list ascii) :
  len s = len t ->
  (forall i, 0 <= i < len s -> chars_eq s t i i = Some true) ->
  s = t.
Proof.
  intros Hlen H. apply nth_error_ext. intros n.
  destruct (Nat.lt_ge_cases n (List.length s)) as [Hn|Hn].
  - specialize (H (Z.of_nat n)). unfold chars_eq, py_getitem, len in H.
    replace (0 <=? Z.of_nat n) with true in H by (symmetry; lia).
    rewrite Nat2Z.id in H.
    destruct (nth_error s n) as [x|]; destruct (nth_error t n) as [y|];
      try (specialize (H ltac:(lia)); discriminate).
    specialize (H ltac:(lia)). injection H as H.
    apply Ascii.eqb_eq in H. now subst.
  - unfold len in Hlen.
    rewrite (proj2 (nth_error_None s n)) by lia.
    rewrite (proj2 (nth_error_None t n)) by lia. reflexivity.
Qed.

Section Flawless.

Variable max_offset : Z.
Variable s t : list ascii.

Lemma end_clause_flawless_cond (st : state) :
  loop_cond s t (end_clause s t st) = false ->
  src_cur (end_clause s t st) = tar_cur (end_clause s t st).
Proof.
  unfold end_clause, loop_cond.
  destruct ((src_cur st >=? len s) || (tar_cur st >=? len t)) eqn:E;
    [reflexivity|].
  apply orb_false_iff in E. intros H. apply andb_false_iff in H. lia.
Qed.

Lemma end_clause_keeps (st : state) :
  offset_arr (end_clause s t st) = offset_arr st /\
  trans (end_clause s t st) = trans st /\
  lcss (end_clause s t st) + local_cs (end_clause s t st)
  = lcss st + local_cs st /\
  Z.min (src_cur (end_clause s t st)) (tar_cur (end_clause s t st))
  = Z.min (src_cur st) (tar_cur st).
Proof.
  unfold end_clause.
  destruct ((src_cur st >=? len s) || (tar_cur st >=? len t));
    cbn [offset_arr trans lcss local_cs src_cur tar_cur];
    repeat split; lia.
Qed.

Lemma end_clause_inside (st : state) :
  src_cur st < len s -> tar_cur st < len t -> end_clause s t st = st.
Proof.
  intros H1 H2. unfold end_clause.
  replace (src_cur st >=? len s) with false by (symmetry; lia).
  replace (tar_cur st >=? len t) with false by (symmetry; lia).
  reflexivity.
Qed.

Lemma end_clause_together (st : state) :
  src_cur st = tar_cur st ->
  src_cur (end_clause s t st) = src_cur st /\
  tar_cur (end_clause s t st) = src_cur st.
Proof.
  intros H. unfold end_clause.
  destruct ((src_cur st >=? len s) || (tar_cur st >=? len t));
    cbn [src_cur tar_cur]; lia.
Qed.

(** A matching step keeps [flawless]. *)
Lemma flawless_match (st : state) :
  scan_inv s t st -> flawless s t st ->
  loop_cond s t st = true ->
  chars_eq s t (src_cur st) (tar_cur st) = Some true ->
  flawless s t (end_clause s t (bump (match_step st))).
Proof.
  intros Hinv (J1 & J2 & J3 & J4) Hcond Hb.
  apply loop_cond_true in Hcond. destruct Hcond as [Hsc Htc].
  destruct Hinv as (Hs & Ht & Hl & Hc & Hle & Htr).
  set (st1 := bump (match_step st)).
  destruct (end_clause_keeps st1) as (Ka & Kt & Kl & Km).
  pose proof (scan_offsets_trans_mono (src_cur st) (tar_cur st) (trans st)
                (offset_arr st)) as Hmono.
  assert (F1 : src_cur st1 = src_cur st + 1 /\ tar_cur st1 = tar_cur st + 1
               /\ lcss st1 + local_cs st1 = lcss st + local_cs st + 1).
  { unfold st1. rewrite match_step_eq. cbn. lia. }
  assert (Ftr : trans st1
                = snd (fst (scan_offsets (src_cur st) (tar_cur st)
                              (trans st) (offset_arr st)))).
  { unfold st1. now rewrite match_step_eq. }
  assert (Farr : offset_arr st1
                 = (snd (scan_offsets (src_cur st) (tar_cur st) (trans st)
                           (offset_arr st))
                    ++ [mk_ofs (src_cur st) (tar_cur st)
                          (fst (fst (scan_offsets (src_cur st) (tar_cur st)
                                       (trans st) (offset_arr st))))])%list).
  { unfold st1. now rewrite match_step_eq. }
  (* when the counter stays at zero, the scan of the history was quiet *)
  assert (Quiet : trans st1 = 0 ->
            trans st = 0 /\
            (forall e, In e (offset_arr st) ->
               overlapping (src_cur st) (tar_cur st) e = false) /\
            offset_arr st1
            = (filter (fun e => negb (superseded (src_cur st) (tar_cur st) e))
                      (offset_arr st)
               ++ [mk_ofs (src_cur st) (tar_cur st) false])%list).
  { intros H0. rewrite Ftr in H0.
    assert (Ht0 : trans st = 0) by lia.
    assert (Hno : forall e, In e (offset_arr st) ->
                    overlapping (src_cur st) (tar_cur st) e = false).
    { apply (scan_offsets_quiet _ _ (trans st)); [now apply J3|lia]. }
    split; [exact Ht0|]. split; [exact Hno|].
    rewrite Farr, (scan_offsets_no_overlap _ _ _ _ Hno). reflexivity. }
  unfold flawless. rewrite Ka, Kt, Kl, Km.
  split; [apply end_clause_flawless_cond|].
  split.
  { intros e He. rewrite Farr in He. apply in_app_or in He.
    destruct He as [He|[<-|[]]]; [|cbn; lia].
    destruct (scan_offsets_positions _ _ _ _ e He) as (e0 & He0 & -> & ->).
    now apply J2. }
  split.
  { intros H0 e He. destruct (Quiet H0) as (Ht0 & _ & Harr).
    rewrite Harr in He. apply in_app_or in He.
    destruct He as [He|[<-|[]]]; [|reflexivity].
    apply filter_In in He. now apply J3. }
  intros H0 Hfull. destruct (Quiet H0) as (Ht0 & Hno & Harr).
  destruct F1 as (Fs & Ft & Fl).
  assert (Hmin : Z.min (src_cur st1) (tar_cur st1)
                 = Z.min (src_cur st) (tar_cur st) + 1) by lia.
  destruct (J4 Ht0 ltac:(lia)) as [(Dc & Dch & Dh)|Hoff].
  - (* on the diagonal *)
    left. destruct (end_clause_together st1 ltac:(lia)) as [E1 E2].
    unfold on_diagonal. rewrite E1, E2, Ka. split; [reflexivity|]. split.
    + intros i Hi. destruct (Z.eq_dec i (src_cur st)) as [->|Hne].
      * rewrite Dc at 2. exact Hb.
      * apply Dch. lia.
    + intros e He. rewrite Harr in He. apply in_app_or in He.
      destruct He as [He|[<-|[]]]; [|cbn [o_src_cur o_tar_cur]; lia].
      apply filter_In in He. destruct (Dh e (proj1 He)). lia.
  - (* off the diagonal *)
    right. right.
    exists (filter (fun e => negb (superseded (src_cur st) (tar_cur st) e))
              (offset_arr st)),
           (mk_ofs (src_cur st) (tar_cur st) false).
    rewrite Ka. split; [exact Harr|]. rewrite Km. cbn [o_src_cur o_tar_cur].
    destruct Hoff as [[Hne _]|(h & q & Hh & Hq)]; [lia|].
    assert (Hin : In q (offset_arr st))
      by (rewrite Hh; apply in_or_app; right; now left).
    pose proof (Hno q Hin) as Hq'. unfold overlapping in Hq'.
    apply orb_false_iff in Hq'. lia.
Qed.

(** A mismatch step keeps [flawless]. *)
Lemma flawless_mismatch (st : state) (sc' tc' : Z) :
  scan_inv s t st -> flawless s t st ->
  loop_cond s t st = true ->
  chars_eq s t (src_cur st) (tar_cur st) = Some false ->
  look_ahead_spec s t (Z.min (src_cur st) (tar_cur st))
    (Z.min (src_cur st) (tar_cur st)) 0 (sc', tc') ->
  flawless s t
    (end_clause s t
       (bump (mk_state sc' tc' (lcss st + local_cs st) 0 (trans st)
                (offset_arr st)))).
Proof.
  intros Hinv (J1 & J2 & J3 & J4) Hcond Hb Hspec.
  apply loop_cond_true in Hcond. destruct Hcond as [Hsc Htc].
  destruct Hinv as (Hs & Ht & Hl & Hc & Hle & Htr).
  set (m := Z.min (src_cur st) (tar_cur st)) in *.
  set (st1 := bump (mk_state sc' tc' (lcss st + local_cs st) 0 (trans st)
                      (offset_arr st))).
  destruct (end_clause_keeps st1) as (Ka & Kt & Kl & Km).
  unfold flawless. rewrite Ka, Kt, Kl, Km.
  split; [apply end_clause_flawless_cond|].
  split; [exact J2|]. split; [exact J3|].
  cbn [st1 bump src_cur tar_cur lcss local_cs trans offset_arr].
  intros H0 Hfull.
  inversion Hspec as [|j Hj Hlt He|j Hj Hlt He]; subst sc' tc'.
  - (* no resynchronisation point: a position gives no common character *)
    exfalso. lia.
  - (* the character of [tar] reappears in [src] *)
    assert (Hst1 : end_clause s t st1 = st1).
    { apply end_clause_inside; cbn [st1 bump src_cur tar_cur]; lia. }
    rewrite Hst1.
    destruct (J4 H0 ltac:(lia)) as [(Dc & Dch & Dh)|Hoff].
    + right. left. cbn [st1 bump src_cur tar_cur].
      replace (m + (j - 1) + 1) with (m + j) by lia.
      replace (m - 1 + 1) with m by lia.
      split; [|exact He].
      assert (j <> 0); [|lia].
      intros ->. rewrite Z.add_0_r in He.
      replace m with (src_cur st) in He at 1 by lia.
      replace m with (tar_cur st) in He by lia. congruence.
    + right. right.
      destruct Hoff as [[_ Hch]|(h & q & Hh & Hq)]; [congruence|].
      exists h, q. cbn [st1 bump src_cur tar_cur offset_arr].
      split; [exact Hh|]. fold m in Hq. lia.
  - (* the character of [src] reappears in [tar] *)
    assert (Hst1 : end_clause s t st1 = st1).
    { apply end_clause_inside; cbn [st1 bump src_cur tar_cur]; lia. }
    rewrite Hst1.
    destruct (J4 H0 ltac:(lia)) as [(Dc & Dch & Dh)|Hoff].
    + right. left. cbn [st1 bump src_cur tar_cur].
      replace (m + (j - 1) + 1) with (m + j) by lia.
      replace (m - 1 + 1) with m by lia.
      split; [|exact He].
      assert (j <> 0); [|lia].
      intros ->. rewrite Z.add_0_r in He.
      replace m with (src_cur st) in He at 1 by lia.
      replace m with (tar_cur st) in He by lia. congruence.
    + right. right.
      destruct Hoff as [[_ Hch]|(h & q & Hh & Hq)]; [congruence|].
      exists h, q. cbn [st1 bump src_cur tar_cur offset_arr].
      split; [exact Hh|]. fold m in Hq. lia.
Qed.

(** Every full iteration of the unbounded scan keeps [flawless]. *)
Lemma flawless_step (st st' : state) :
  scan_inv s t st -> flawless s t st -> loop_cond s t st = true ->
  loop_body max_offset 0 s t st = Continue st' -> flawless s t st'.
Proof.
  intros Hinv HJ Hcond.
  pose proof Hcond as Hcond'. apply loop_cond_true in Hcond'.
  destruct Hcond' as [Hsc Htc].
  pose proof Hinv as (Hs & Ht & _).
  unfold loop_body, advance.
  destruct (chars_eq_in_range s t (src_cur st) (tar_cur st)) as [b Hb];
    [lia|lia|].
  rewrite Hb. destruct b.
  - cbn [Z.eqb negb andb]. intros H. injection H as <-.
    now apply flawless_match.
  - unfold mismatch_step.
    set (m := Z.min (src_cur st) (tar_cur st)).
    assert (Hre : (if negb (src_cur st =? tar_cur st)
                   then (m, m) else (src_cur st, tar_cur st)) = (m, m)).
    { destruct (src_cur st =? tar_cur st) eqn:E; simpl; [|reflexivity].
      apply Z.eqb_eq in E. unfold m. f_equal; lia. }
    rewrite Hre.
    destruct (look_ahead_ok s t m m (Z.to_nat max_offset)) with (i := 0)
      as [[sc' tc'] [Hla Hspec]]; [unfold m; lia|unfold m; lia|lia|].
    rewrite Hla. cbn [option_map Z.eqb negb andb].
    intros H. injection H as <-.
    now apply flawless_mismatch.
Qed.

Lemma flawless_init : flawless s t init.
Proof.
  unfold flawless, init. cbn [src_cur tar_cur offset_arr trans lcss local_cs].
  split; [reflexivity|]. split; [intros e []|]. split; [intros _ e []|].
  intros _ _. left. unfold on_diagonal. cbn [src_cur tar_cur offset_arr].
  split; [reflexivity|]. split; [intros i Hi; lia|intros e []].
Qed.

(** Two non-empty strings at unbounded distance 0 are equal. *)
Lemma dist_abs_fuel_zero :
  dist_abs_fuel max_offset 0 s t (iterations_bound s t) = Returned 0 ->
  s = t.
Proof.
  destruct (Z.eq_dec (len s) 0) as [Hs|Hs].
  { assert (s = []) as -> by (destruct s; [reflexivity|cbn in Hs; lia]).
    unfold dist_abs_fuel. intros H. injection H as H.
    destruct t; [reflexivity|cbn in H; lia]. }
  destruct (Z.eq_dec (len t) 0) as [Ht|Ht].
  { assert (t = []) as -> by (destruct t; [reflexivity|cbn in Ht; lia]).
    unfold dist_abs_fuel. destruct s; [reflexivity|].
    intros H. injection H as H. cbn in H. lia. }
  rewrite dist_abs_fuel_nonempty by (unfold len in *; lia).
  destruct (scan_unbounded_final max_offset s t (flawless s t)
              flawless_init flawless_step)
    as (st & Hscan & Hinv & Hcond & (J1 & J2 & _ & J4)).
  rewrite Hscan. intros H. injection H as H.
  unfold final_distance, round in H.
  destruct Hinv as (Hsc & Htc & Hl & Hc & Hle & Htr).
  specialize (J1 Hcond).
  unfold loop_cond in Hcond. apply andb_false_iff in Hcond.
  assert (Hlen : len s = len t) by lia.
  assert (Hcur : src_cur st = len s) by lia.
  destruct (J4 ltac:(lia) ltac:(lia)) as [(_ & Dch & _)|Hoff].
  - apply chars_eq_all; [exact Hlen|]. intros i Hi. apply Dch. lia.
  - exfalso. destruct Hoff as [[Hne _]|(h & q & Hh & Hq)]; [lia|].
    assert (Hin : In q (offset_arr st))
      by (rewrite Hh; apply in_or_app; right; now left).
    destruct (J2 q Hin). lia.
Qed.

End Flawless.

Lemma list_ascii_of_string_inj (a b : string) :
  list_ascii_of_string a = list_ascii_of_string b -> a = b.
Proof.
  intros H.
  rewrite <- (string_of_list_ascii_of_string a),
          <- (string_of_list_ascii_of_string b).
  now rewrite H.
Qed.

(** X6. Without a distance bound, the distance is 0 exactly between equal
    strings, for every [max_offset]. *)
Theorem dist_abs_zero_iff_equal (max_offset : Z) (src tar : string) :
  dist_abs max_offset 0 src tar = Returned 0 <-> src = tar.
Proof.
  split.
  - intros H. apply list_ascii_of_string_inj.
    exact (dist_abs_fuel_zero max_offset _ _ H).
  - intros <-. unfold dist_abs.
    pose proof (proj1 (dist_abs_fuel_prefix max_offset
                         (list_ascii_of_string src) [])) as H.
    rewrite app_nil_r in H. exact H.
Qed.

(** An instance: a string against itself. *)
Lemma dist_abs_zero_iff_equal_witness :
  dist_abs 5 0 "Niall" "Niall" = Returned 0 /\
  "Niall"%string = "Niall"%string /\
  dist_abs 5 0 "Niall" "Neil" <> Returned 0.
Proof.
  assert (H : dist_abs 5 0 "Niall" "Niall" = Returned 0)
    by (vm_compute; reflexivity).
  split; [exact H|].
  split; [exact (proj1 (dist_abs_zero_iff_equal 5 "Niall" "Niall") H)|].
  intros H'.
  pose proof (proj1 (dist_abs_zero_iff_equal 5 "Niall" "Neil") H') as E.
  discriminate E.
Defined.

(** ** The result under any distance bound *)

Section AnyBound.

Variable max_offset : Z.
Variable max_distance : Z.
Variable src tar : list ascii.

Lemma scan_result_bound (fuel : nat) :
  forall st,
  scan_inv src tar st -> trans st <= lcss st + local_cs st ->
  match scan max_offset max_distance src tar fuel st with
  | Finished st' =>
      0 <= final_distance src tar st' <= Z.max (len src) (len tar)
  | Exited v => 0 <= v <= len src + len tar
  | _ => True
  end.
Proof.
  induction fuel as [|fuel IH]; intros st Hinv Hm; cbn [scan];
    destruct (loop_cond src tar st) eqn:Hc; try exact I;
    try (unfold final_distance, round, scan_inv in *; lia).
  destruct (advance_progress max_offset src tar st Hinv Hc)
    as (st1 & Ha & Hi1 & _).
  pose proof (advance_matches max_offset src tar st st1 Ha Hm) as Hm1.
  pose proof (loop_body_progress max_offset max_distance src tar st
                Hinv Hc) as Hp.
  unfold loop_body in *. rewrite Ha in *.
  destruct (negb (max_distance =? 0)
            && (temporary_distance st1 >=? max_distance)).
  - unfold round, temporary_distance, scan_inv in *. lia.
  - apply IH; [apply Hp|now apply end_clause_matches].
Qed.

End AnyBound.

(** X16. Whatever the distance bound and the look-ahead width, the result
    is at least 0 and at most the sum of the two lengths. *)
Theorem dist_abs_result_bound
  (max_offset max_distance : Z) (src tar : string) :
  exists v,
    dist_abs max_offset max_distance src tar = Returned v /\
    0 <= v
    <= Z.of_nat (String.length src) + Z.of_nat (String.length tar).
Proof.
  destruct (dist_abs_returns max_offset max_distance src tar) as (v & Hv).
  exists v. split; [exact Hv|].
  revert Hv. unfold dist_abs.
  rewrite <- !length_list_ascii_of_string.
  set (s := list_ascii_of_string src). set (t := list_ascii_of_string tar).
  fold (len s) (len t).
  assert (Hs : 0 <= len s) by (unfold len; lia).
  assert (Ht : 0 <= len t) by (unfold len; lia).
  destruct (Z.eq_dec (len s) 0) as [Hs0|Hs0].
  { assert (s = []) as -> by (destruct s; [reflexivity|cbn in Hs0; lia]).
    unfold dist_abs_fuel. intros H. injection H as <-. lia. }
  destruct (Z.eq_dec (len t) 0) as [Ht0|Ht0].
  { assert (t = []) as -> by (destruct t; [reflexivity|cbn in Ht0; lia]).
    unfold dist_abs_fuel. destruct s; intros H; injection H as <-; lia. }
  rewrite dist_abs_fuel_nonempty by lia.
  pose proof (scan_result_bound max_offset max_distance s t
                (iterations_bound s t) init (init_inv s t)) as H.
  specialize (H ltac:(cbn; lia)).
  destruct (scan max_offset max_distance s t (iterations_bound s t) init);
    intros E; try discriminate; injection E as <-; lia.
Qed.

(** ** Strings without a common character *)

Section Disjoint.

Variable max_offset : Z.
Variable s t : list ascii.
Hypothesis disjoint : forall x, In x s -> In x t -> False.

Lemma py_getitem_In {A : Type} (l : list A) (i : Z) (x : A) :
  py_getitem l i = Some x -> In x l.
Proof.
  unfold py_getitem.
  destruct (0 <=? i); [apply nth_error_In|].
  destruct (- len l <=? i); [apply nth_error_In|discriminate].
Qed.

Lemma chars_eq_disjoint (i j : Z) : chars_eq s t i j <> Some true.
Proof.
  unfold chars_eq.
  destruct (py_getitem s i) as [x|] eqn:Ex; [|discriminate].
  destruct (py_getitem t j) as [y|] eqn:Ey; [|discriminate].
  intros H. injection H as H. apply Ascii.eqb_eq in H. subst y.
  apply (disjoint x); [exact (py_getitem_In _ _ _ Ex)|].
  exact (py_getitem_In _ _ _ Ey).
Qed.

Lemma nothing_common_step (st st' : state) :
  scan_inv s t st -> nothing_common st -> loop_cond s t st = true ->
  loop_body max_offset 0 s t st = Continue st' -> nothing_common st'.
Proof.
  intros _ (Hl & Hc & Ht) _. unfold loop_body, advance.
  pose proof (chars_eq_disjoint (src_cur st) (tar_cur st)) as Hne.
  destruct (chars_eq s t (src_cur st) (tar_cur st)) as [[|]|];
    [congruence| |discriminate].
  unfold mismatch_step.
  destruct (if negb (src_cur st =? tar_cur st)
            then (Z.min (src_cur st) (tar_cur st),
                  Z.min (src_cur st) (tar_cur st))
            else (src_cur st, tar_cur st)) as [sc tc].
  destruct (look_ahead s t sc tc 0 (Z.to_nat max_offset))
    as [[sc' tc']|]; [|discriminate].
  cbn [option_map Z.eqb negb andb]. intros H. injection H as <-.
  unfold nothing_common, end_clause, bump.
  cbn [src_cur tar_cur lcss local_cs trans].
  destruct ((sc' + 1 >=? len s) || (tc' + 1 >=? len t));
    cbn [lcss local_cs trans]; lia.
Qed.

Lemma dist_abs_fuel_disjoint :
  dist_abs_fuel max_offset 0 s t (iterations_bound s t)
  = Returned (Z.max (len s) (len t)).
Proof.
  assert (Hs : 0 <= len s) by (unfold len; lia).
  assert (Ht : 0 <= len t) by (unfold len; lia).
  destruct (Z.eq_dec (len s) 0) as [Hs0|Hs0].
  { assert (Es : s = []) by (destruct s; [reflexivity|cbn in Hs0; lia]).
    rewrite Es. unfold dist_abs_fuel.
    f_equal; change (len (@nil ascii)) with 0; lia. }
  destruct (Z.eq_dec (len t) 0) as [Ht0|Ht0].
  { assert (Et : t = []) by (destruct t; [reflexivity|cbn in Ht0; lia]).
    rewrite Et. unfold dist_abs_fuel.
    destruct s; [reflexivity|].
    f_equal; change (len (@nil ascii)) with 0; lia. }
  rewrite dist_abs_fuel_nonempty by lia.
  destruct (scan_unbounded_final max_offset s t nothing_common)
    as (st & Hscan & _ & _ & (Hl & Hc & Htr)).
  - repeat split.
  - exact nothing_common_step.
  - rewrite Hscan. f_equal. unfold final_distance, round. lia.
Qed.

End Disjoint.

(** X17. Without a distance bound, two strings that have no character in
    common are at a distance equal to the length of the longer one, for
    every [max_offset]. *)
Theorem dist_abs_disjoint (max_offset : Z) (src tar : string) :
  (forall x, In x (list_ascii_of_string src) ->
             In x (list_ascii_of_string tar) -> False) ->
  dist_abs max_offset 0 src tar
  = Returned (Z.max (Z.of_nat (String.length src))
                    (Z.of_nat (String.length tar))).
Proof.
  intros H. unfold dist_abs.
  rewrite <- !length_list_ascii_of_string.
  now apply dist_abs_fuel_disjoint.
Qed.

(** An instance: 'abc' and 'xy'. *)
Lemma dist_abs_disjoint_witness :
  (forall x, In x (list_ascii_of_string "abc") ->
             In x (list_ascii_of_string "xy") -> False) /\
  dist_abs 5 0 "abc" "xy" = Returned 3.
Proof.
  assert (H : forall x, In x (list_ascii_of_string "abc") ->
                        In x (list_ascii_of_string "xy") -> False).
  { intros x [<-|[<-|[<-|[]]]] [E|[E|[]]]; discriminate E. }
  split; [exact H|].
  rewrite (dist_abs_disjoint 5 "abc" "xy" H). reflexivity.
Defined.

(** ** A common prefix *)

Lemma len_cons {A : Type} (x : A) (l : list A) : len (x :: l) = len l + 1.
Proof. unfold len. cbn [List.length]. lia. Qed.

Lemma py_getitem_cons {A : Type} (x : A) (l : list A) (i : Z) :
  0 <= i -> py_getitem (x :: l) (i + 1) = py_getitem l i.
Proof.
  intros Hi. unfold py_getitem.
  replace (0 <=? i + 1) with true by (symmetry; lia).
  replace (0 <=? i) with true by (symmetry; lia).
  now replace (Z.to_nat (i + 1)) with (S (Z.to_nat i)) by lia.
Qed.

Lemma scan_offsets_shift (sc tc tr : Z) (h : list ofs) :
  scan_offsets (sc + 1) (tc + 1) tr (map shift_ofs h)
  = (fst (fst (scan_offsets sc tc tr h)),
     snd (fst (scan_offsets sc tc tr h)),
     map shift_ofs (snd (scan_offsets sc tc tr h))).
Proof.
  induction h as [|o rest IH]; [reflexivity|].
  cbn [map scan_offsets shift_ofs o_src_cur o_tar_cur o_trans].
  replace (sc + 1 <=? o_src_cur o + 1) with (sc <=? o_src_cur o)
    by (destruct (sc <=? o_src_cur o) eqn:E; symmetry; lia).
  replace (tc + 1 <=? o_tar_cur o + 1) with (tc <=? o_tar_cur o)
    by (destruct (tc <=? o_tar_cur o) eqn:E; symmetry; lia).
  replace (tc + 1 - (sc + 1)) with (tc - sc) by lia.
  replace (o_tar_cur o + 1 - (o_src_cur o + 1))
    with (o_tar_cur o - o_src_cur o) by lia.
  replace (sc + 1 >? o_tar_cur o + 1) with (sc >? o_tar_cur o)
    by (destruct (sc >? o_tar_cur o) eqn:E; symmetry; lia).
  replace (tc + 1 >? o_src_cur o + 1) with (tc >? o_src_cur o)
    by (destruct (tc >? o_src_cur o) eqn:E; symmetry; lia).
  destruct ((sc <=? o_src_cur o) || (tc <=? o_tar_cur o)).
  - destruct (Z.abs (tc - sc) >=? Z.abs (o_tar_cur o - o_src_cur o));
      [|destruct (negb (o_trans o))]; reflexivity.
  - destruct ((sc >? o_tar_cur o) && (tc >? o_src_cur o)); [exact IH|].
    rewrite IH. destruct (scan_offsets sc tc tr rest) as [[b t'] r].
    reflexivity.
Qed.

Section CommonFirstCharacter.

Variable max_offset : Z.
Variable c : ascii.
Variable s t : list ascii.

Lemma chars_eq_cons (i j : Z) :
  0 <= i -> 0 <= j ->
  chars_eq (c :: s) (c :: t) (i + 1) (j + 1) = chars_eq s t i j.
Proof.
  intros Hi Hj. unfold chars_eq. now rewrite !py_getitem_cons.
Qed.

Lemma look_ahead_cons (sc tc : Z) (n : nat) :
  0 <= sc -> 0 <= tc ->
  forall i, 0 <= i ->
  look_ahead (c :: s) (c :: t) (sc + 1) (tc + 1) i n
  = option_map (fun p => (fst p + 1, snd p + 1))
               (look_ahead s t sc tc i n).
Proof.
  intros Hs Ht. induction n as [|n IH]; intros i Hi; cbn [look_ahead];
    [reflexivity|].
  rewrite !len_cons.
  replace (sc + 1 + i <? len s + 1) with (sc + i <? len s)
    by (destruct (sc + i <? len s) eqn:E; symmetry; lia).
  replace (tc + 1 + i <? len t + 1) with (tc + i <? len t)
    by (destruct (tc + i <? len t) eqn:E; symmetry; lia).
  destruct (negb ((sc + i <? len s) || (tc + i <? len t)));
    [reflexivity|].
  replace (sc + 1 + i) with (sc + i + 1) by lia.
  replace (tc + 1 + i) with (tc + i + 1) by lia.
  rewrite !chars_eq_cons by lia.
  destruct (if sc + i <? len s then chars_eq s t (sc + i) tc
            else Some false) as [[|]|].
  - cbn [option_map fst snd]. do 2 f_equal; lia.
  - destruct (if tc + i <? len t then chars_eq s t sc (tc + i)
              else Some false) as [[|]|].
    + cbn [option_map fst snd]. do 2 f_equal; lia.
    + apply IH. lia.
    + reflexivity.
  - reflexivity.
Qed.

Lemma shifted_bump (stA stB : state) :
  shifted stA stB -> shifted (bump stA) (bump stB).
Proof.
  unfold shifted, bump. cbn [src_cur tar_cur lcss local_cs trans offset_arr].
  intros (H1 & H2 & H3 & H4 & H5). repeat split; try lia; auto.
Qed.

Lemma shifted_end_clause (stA stB : state) :
  shifted stA stB ->
  shifted (end_clause (c :: s) (c :: t) stA) (end_clause s t stB).
Proof.
  unfold shifted, end_clause. intros (H1 & H2 & H3 & H4 & H5).
  rewrite !len_cons, H1, H2.
  replace (src_cur stB + 1 >=? len s + 1) with (src_cur stB >=? len s)
    by (destruct (src_cur stB >=? len s) eqn:E; symmetry; lia).
  replace (tar_cur stB + 1 >=? len t + 1) with (tar_cur stB >=? len t)
    by (destruct (tar_cur stB >=? len t) eqn:E; symmetry; lia).
  destruct ((src_cur stB >=? len s) || (tar_cur stB >=? len t));
    cbn [src_cur tar_cur lcss local_cs trans offset_arr];
    repeat split; try lia; auto.
Qed.

Lemma shifted_match_step (stA stB : state) :
  shifted stA stB -> 0 <= src_cur stB -> 0 <= tar_cur stB ->
  shifted (match_step stA) (match_step stB).
Proof.
  intros (H1 & H2 & H3 & H4 & H5) Hs Ht.
  rewrite (match_step_eq stA), (match_step_eq stB).
  rewrite H1, H2, H4.
  unfold shifted. cbn [src_cur tar_cur lcss local_cs trans offset_arr].
  destruct H5 as [H5|[H5 H6]].
  - rewrite H5, scan_offsets_shift. cbn [fst snd].
    repeat split; try lia. left.
    now rewrite map_app.
  - rewrite H5, H6. cbn [scan_offsets o_src_cur o_tar_cur o_trans].
    replace (src_cur stB + 1 <=? 0) with false by (symmetry; lia).
    replace (tar_cur stB + 1 <=? 0) with false by (symmetry; lia).
    replace (src_cur stB + 1 >? 0) with true by (symmetry; lia).
    replace (tar_cur stB + 1 >? 0) with true by (symmetry; lia).
    cbn [orb andb fst snd app].
    repeat split; try lia. left. reflexivity.
Qed.

Lemma shifted_mismatch_step (stA stB stB' : state) :
  shifted stA stB -> 0 <= src_cur stB -> 0 <= tar_cur stB ->
  mismatch_step max_offset s t stB = Some stB' ->
  exists stA',
    mismatch_step max_offset (c :: s) (c :: t) stA = Some stA' /\
    shifted stA' stB'.
Proof.
  intros (H1 & H2 & H3 & H4 & H5) Hs Ht. unfold mismatch_step.
  rewrite H1, H2.
  replace (src_cur stB + 1 =? tar_cur stB + 1)
    with (src_cur stB =? tar_cur stB)
    by (destruct (src_cur stB =? tar_cur stB) eqn:E; symmetry; lia).
  replace (Z.min (src_cur stB + 1) (tar_cur stB + 1))
    with (Z.min (src_cur stB) (tar_cur stB) + 1) by lia.
  destruct (negb (src_cur stB =? tar_cur stB)).
  - rewrite look_ahead_cons by lia.
    destruct (look_ahead s t (Z.min (src_cur stB) (tar_cur stB))
                (Z.min (src_cur stB) (tar_cur stB)) 0
                (Z.to_nat max_offset)) as [[sc' tc']|]; [|discriminate].
    cbn [option_map fst snd]. intros H. injection H as <-.
    eexists; split; [reflexivity|].
    unfold shifted. cbn [src_cur tar_cur lcss local_cs trans offset_arr].
    repeat split; try lia; auto.
  - rewrite look_ahead_cons by lia.
    destruct (look_ahead s t (src_cur stB) (tar_cur stB) 0
                (Z.to_nat max_offset)) as [[sc' tc']|]; [|discriminate].
    cbn [option_map fst snd]. intros H. injection H as <-.
    eexists; split; [reflexivity|].
    unfold shifted. cbn [src_cur tar_cur lcss local_cs trans offset_arr].
    repeat split; try lia; auto.
Qed.

Lemma shifted_loop_body (stA stB stB' : state) :
  shifted stA stB -> 0 <= src_cur stB -> 0 <= tar_cur stB ->
  loop_body max_offset 0 s t stB = Continue stB' ->
  exists stA',
    loop_body max_offset 0 (c :: s) (c :: t) stA = Continue stA' /\
    shifted stA' stB'.
Proof.
  intros HR Hs Ht. pose proof HR as (H1 & H2 & _).
  unfold loop_body, advance. rewrite H1, H2, chars_eq_cons by lia.
  destruct (chars_eq s t (src_cur stB) (tar_cur stB)) as [[|]|];
    [| |discriminate]; cbn [Z.eqb negb andb].
  - intros H. injection H as <-. eexists; split; [reflexivity|].
    apply shifted_end_clause, shifted_bump. now apply shifted_match_step.
  - destruct (mismatch_step max_offset s t stB) as [stB1|] eqn:E;
      [|discriminate].
    destruct (shifted_mismatch_step stA stB stB1 HR Hs Ht E)
      as (stA1 & EA & HR1).
    rewrite EA. cbn [option_map]. intros H. injection H as <-.
    eexists; split; [reflexivity|].
    now apply shifted_end_clause, shifted_bump.
Qed.

Lemma shifted_loop_cond (stA stB : state) :
  shifted stA stB ->
  loop_cond (c :: s) (c :: t) stA = loop_cond s t stB.
Proof.
  intros (H1 & H2 & _). unfold loop_cond. rewrite !len_cons, H1, H2.
  replace (src_cur stB + 1 <? len s + 1) with (src_cur stB <? len s)
    by (destruct (src_cur stB <? len s) eqn:E; symmetry; lia).
  now replace (tar_cur stB + 1 <? len t + 1) with (tar_cur stB <? len t)
    by (destruct (tar_cur stB <? len t) eqn:E; symmetry; lia).
Qed.

Lemma shifted_scan (fuel : nat) :
  forall stA stB stB',
  shifted stA stB -> scan_inv s t stB ->
  scan max_offset 0 s t fuel stB = Finished stB' ->
  exists stA',
    scan max_offset 0 (c :: s) (c :: t) fuel stA = Finished stA' /\
    shifted stA' stB'.
Proof.
  induction fuel as [|fuel IH]; intros stA stB stB' HR Hinv H;
    cbn [scan] in *; rewrite (shifted_loop_cond stA stB HR);
    destruct (loop_cond s t stB) eqn:Hc; try discriminate.
  - injection H as <-. now exists stA.
  - pose proof (loop_body_progress max_offset 0 s t stB Hinv Hc) as Hp.
    destruct (loop_body max_offset 0 s t stB) as [stB1|v|e] eqn:Hb;
      try discriminate.
    destruct (shifted_loop_body stA stB stB1 HR) as (stA1 & EA & HR1);
      [unfold scan_inv in Hinv; lia|unfold scan_inv in Hinv; lia|exact Hb|].
    rewrite EA. apply (IH stA1 stB1 stB'); [exact HR1|apply Hp|exact H].
  - injection H as <-. now exists stA.
Qed.

(** The first iteration on two non-empty strings that start with the same
    character. *)
Lemma loop_body_first :
  0 < len s -> 0 < len t ->
  loop_cond (c :: s) (c :: t) init = true /\
  loop_body max_offset 0 (c :: s) (c :: t) init
  = Continue (mk_state 1 1 0 1 0 [mk_ofs 0 0 false]).
Proof.
  intros Hs Ht. split.
  - apply loop_cond_true. rewrite !len_cons. cbn [init src_cur tar_cur]. lia.
  - unfold loop_body, advance. cbn [init src_cur tar_cur].
    unfold chars_eq. cbn [py_getitem Z.leb Z.compare Z.to_nat nth_error].
    rewrite Ascii.eqb_refl. cbn [Z.eqb negb andb]. f_equal.
    unfold end_clause, bump, match_step, init.
    cbn [src_cur tar_cur lcss local_cs trans offset_arr scan_offsets app].
    rewrite !len_cons.
    replace (0 + 1 >=? len s + 1) with false by (symmetry; lia).
    replace (0 + 1 >=? len t + 1) with false by (symmetry; lia).
    reflexivity.
Qed.

Lemma dist_abs_fuel_cons :
  dist_abs_fuel max_offset 0 (c :: s) (c :: t)
    (iterations_bound (c :: s) (c :: t))
  = dist_abs_fuel max_offset 0 s t (iterations_bound s t).
Proof.
  assert (Hs : 0 <= len s) by (unfold len; lia).
  assert (Ht : 0 <= len t) by (unfold len; lia).
  destruct (Z.eq_dec (len s) 0) as [Hs0|Hs0].
  { assert (Es : s = []) by (destruct s; [reflexivity|cbn in Hs0; lia]).
    rewrite Es. change (c :: t) with ([c] ++ t)%list.
    rewrite (proj1 (dist_abs_fuel_prefix max_offset [c] t)).
    reflexivity. }
  destruct (Z.eq_dec (len t) 0) as [Ht0|Ht0].
  { assert (Et : t = []) by (destruct t; [reflexivity|cbn in Ht0; lia]).
    rewrite Et. change (c :: s) with ([c] ++ s)%list.
    rewrite (proj2 (dist_abs_fuel_prefix max_offset [c] s)).
    unfold dist_abs_fuel. now destruct s. }
  rewrite (dist_abs_fuel_nonempty max_offset 0 s t) by lia.
  rewrite dist_abs_fuel_nonempty by (rewrite len_cons; lia).
  destruct (scan_unbounded_final max_offset s t (fun _ => True) I
              (fun _ _ _ _ _ _ => I)) as (stB & HscanB & _).
  rewrite HscanB.
  destruct (shifted_scan (iterations_bound s t)
              (mk_state 1 1 0 1 0 [mk_ofs 0 0 false]) init stB)
    as (stA & HscanA & (R1 & R2 & R3 & R4 & _)).
  { unfold shifted, init.
    cbn [src_cur tar_cur lcss local_cs trans offset_arr]. auto 10. }
  { apply init_inv. }
  { exact HscanB. }
  assert (E : scan max_offset 0 (c :: s) (c :: t)
                (S (iterations_bound s t)) init = Finished stA).
  { cbn [scan]. destruct (loop_body_first ltac:(lia) ltac:(lia))
      as [-> ->]. exact HscanA. }
  replace (iterations_bound (c :: s) (c :: t))
    with (S (iterations_bound s t) + 1)%nat
    by (unfold iterations_bound; rewrite !len_cons; lia).
  rewrite scan_fuel_mono, E by (rewrite E; discriminate).
  f_equal. unfold final_distance, round. rewrite !len_cons. lia.
Qed.

End CommonFirstCharacter.

Lemma dist_abs_fuel_common_prefix (max_offset : Z) (p s t : list ascii) :
  dist_abs_fuel max_offset 0 (p ++ s)%list (p ++ t)%list
    (iterations_bound (p ++ s)%list (p ++ t)%list)
  = dist_abs_fuel max_offset 0 s t (iterations_bound s t).
Proof.
  induction p as [|c p IH]; [reflexivity|].
  cbn [app]. now rewrite dist_abs_fuel_cons.
Qed.

(** X19. Without a distance bound, a common prefix does not change the
    distance: [dist_abs(p + src, p + tar) = dist_abs(src, tar)], for every
    [max_offset]. *)
Theorem dist_abs_common_prefix (max_offset : Z) (p src tar : string) :
  dist_abs max_offset 0 (p ++ src) (p ++ tar)
  = dist_abs max_offset 0 src tar.
Proof.
  unfold dist_abs. rewrite !list_ascii_of_string_app.
  apply dist_abs_fuel_common_prefix.
Qed.

(** * Properties of the formulas *)

Import TokenDistance PyMath Formulas.

(** ** Python arithmetic *)

Lemma truediv_nonzero (x y : R) :
  y <> 0%R -> truediv x y = Returned (x / y)%R.
Proof. intros H. unfold truediv. now destruct (Req_dec_T y 0). Qed.

Lemma truediv_zero (x : R) : truediv x 0 = Raised ZeroDivisionError.
Proof. unfold truediv. now destruct (Req_dec_T 0 0). Qed.

Lemma pow_half_nonneg (x : R) :
  (0 <= x)%R -> pow_half x = PyFloat (sqrt x).
Proof. intros H. unfold pow_half. destruct (Rlt_dec x 0); [lra|reflexivity]. Qed.

Lemma pow_half_neg (x : R) :
  (x < 0)%R -> pow_half x = PyComplex 0 (sqrt (- x)).
Proof. intros H. unfold pow_half. destruct (Rlt_dec x 0); [reflexivity|lra]. Qed.

(** The base-2 logarithm of a number that is at least 2 is at least 1. *)
Lemma log_2_ge_1 (x : R) :
  (2 <= x)%R -> exists l, log x 2 = Returned l /\ (1 <= l)%R.
Proof.
  intros Hx. unfold log.
  destruct (Rle_dec x 0); [lra|]. destruct (Rle_dec 2 0); [lra|].
  assert (H2 : (0 < ln 2)%R).
  { rewrite <- ln_1. apply ln_increasing; lra. }
  rewrite truediv_nonzero by lra.
  eexists; split; [reflexivity|].
  assert (Hle : (ln 2 <= ln x)%R).
  { destruct (Req_dec_T x 2) as [->|Hne]; [lra|].
    left. apply ln_increasing; lra. }
  apply (Rmult_le_reg_r (ln 2)); [exact H2|].
  unfold Rdiv. rewrite Rmult_assoc, Rinv_l by lra. lra.
Qed.

(** ** Dennis *)

(** C9. When both strings are empty, [Dennis.sim_score] returns [0.0]
    whatever the engine would compute for them: the value is returned
    before tokenization and before any cardinality is read. *)
Theorem Dennis_sim_score_empty (self : engine) :
  Dennis_sim_score self "" "" = Returned (PyFloat 0).
Proof. reflexivity. Qed.

(** ** Doolittle *)

(** A zero denominator makes [Doolittle.sim] raise. *)
Lemma Doolittle_sim_zero_denominator (self : engine) (src tar : string) :
  let k := self src tar in
  (card_a k + card_b k) * (card_a k + card_c k)
  * (card_b k + card_d k) * (card_c k + card_d k) = 0 ->
  Doolittle_sim self src tar = Raised ZeroDivisionError.
Proof.
  intros k H. unfold Doolittle_sim. fold k.
  rewrite <- !plus_IZR, <- !mult_IZR, H. apply truediv_zero.
Qed.

(** C1 (evaluation of the code).  For two empty strings, where
    [a = b = c = 0], [Doolittle.sim] raises [ZeroDivisionError], whatever
    the population size; it returns neither NaN nor an infinity. *)
Theorem Doolittle_sim_empty_raises (n : Z) :
  Doolittle_sim (compare characters n) "" "" = Raised ZeroDivisionError.
Proof. apply Doolittle_sim_zero_denominator. reflexivity. Qed.

(** ** Pearson III *)

(** A negative [phi] above [-n] makes the radicand negative and the result
    of [PearsonIII.corr] a complex number. *)
Lemma PearsonIII_corr_negative_phi
  (self : engine) (phi_corr : string -> string -> outcome R)
  (src tar : string) (phi : R) :
  phi_corr src tar = Returned phi ->
  (- IZR (card_n (self src tar)) < phi < 0)%R ->
  (phi / (IZR (card_n (self src tar)) + phi) < 0)%R /\
  PearsonIII_corr self phi_corr src tar
  = Returned (PyComplex 0
                (sqrt (- (phi / (IZR (card_n (self src tar)) + phi))))).
Proof.
  intros Hphi [Hlo Hhi].
  set (n := IZR (card_n (self src tar))) in *.
  assert (Hq : (phi / (n + phi) < 0)%R).
  { unfold Rdiv. rewrite <- (Rmult_0_l (/ (n + phi))).
    apply Rmult_lt_compat_r; [apply Rinv_0_lt_compat; lra|exact Hhi]. }
  split; [exact Hq|].
  unfold PearsonIII_corr. rewrite Hphi. cbn [bind]. fold n.
  rewrite truediv_nonzero by lra. cbn [bind].
  now rewrite pow_half_neg.
Qed.

(** C8 (evaluation of the code).  For 'ab' and 'cd', whose token sets are
    disjoint ([a = 0], [b = c = 2], [d = 22] over single characters and a
    population of 26), [phi] is [-1/12], the radicand [phi / (n + phi)] is
    [-1/311], and [PearsonIII.corr] returns a complex number. *)
Theorem PearsonIII_corr_disjoint_complex :
  let self := compare characters 26 in
  PearsonPhi_corr self "ab" "cd" = Returned (- 1 / 12)%R /\
  PearsonIII_corr self (PearsonPhi_corr self) "ab" "cd"
  = Returned (PyComplex 0 (sqrt (1 / 311))).
Proof.
  intros self.
  assert (Hk : self "ab"%string "cd"%string = mk_cards 0 2 2 22 26)
    by reflexivity.
  assert (Hphi : PearsonPhi_corr self "ab" "cd" = Returned (- 1 / 12)%R).
  { unfold PearsonPhi_corr. rewrite Hk.
    cbn [card_a card_b card_c card_d].
    replace ((0 + 2) * (0 + 2) * (2 + 22) * (2 + 22))%R
      with (48 * 48)%R by lra.
    rewrite sqrt_square by lra. rewrite truediv_nonzero by lra.
    f_equal. lra. }
  split; [exact Hphi|].
  destruct (PearsonIII_corr_negative_phi self (PearsonPhi_corr self)
              "ab" "cd" (- 1 / 12)%R Hphi) as [_ ->].
  - rewrite Hk. cbn [card_n]. lra.
  - rewrite Hk. cbn [card_n].
    replace (- (-1 / 12 / (26 + -1 / 12)))%R with (1 / 311)%R by field.
    reflexivity.
Qed.

(** ** Tulloss' S *)

(** On non-negative cardinalities [a], [b] and [c], [TullossS.sim] raises
    nothing and returns a float in (0, 1]. *)
Lemma TullossS_sim_nonneg_cards (self : engine) (src tar : string) :
  0 <= card_a (self src tar) ->
  0 <= card_b (self src tar) ->
  0 <= card_c (self src tar) ->
  exists v,
    TullossS_sim self src tar = Returned (PyFloat v) /\ (0 < v <= 1)%R.
Proof.
  intros Ha Hb Hc. unfold TullossS_sim.
  apply IZR_le in Ha, Hb, Hc.
  set (a := IZR (card_a (self src tar))) in *.
  set (b := IZR (card_b (self src tar))) in *.
  set (c := IZR (card_c (self src tar))) in *.
  rewrite truediv_nonzero by lra. cbn [bind].
  assert (Hq : (0 <= Rmin b c / (a + 1))%R).
  { unfold Rdiv. apply Rmult_le_pos.
    - apply Rmin_glb; assumption.
    - left. apply Rinv_0_lt_compat. lra. }
  destruct (log_2_ge_1 (2 + Rmin b c / (a + 1))%R) as (l & Hl & Hl1);
    [lra|].
  rewrite Hl. cbn [bind].
  rewrite pow_half_nonneg by lra.
  assert (Hs : (1 <= sqrt l)%R).
  { rewrite <- sqrt_1. apply sqrt_le_1_alt. exact Hl1. }
  unfold div_val. rewrite truediv_nonzero by lra. cbn [bind].
  eexists; split; [reflexivity|].
  assert (Hinv : (0 < / sqrt l)%R) by (apply Rinv_0_lt_compat; lra).
  unfold Rdiv. rewrite Rmult_1_l. split; [exact Hinv|].
  rewrite <- Rinv_1. apply Rinv_le_contravar; lra.
Qed.

(** C10. Whenever the engine hands over non-negative cardinalities [a],
    [b] and [c], as it does for every pair of strings, [TullossS.sim]
    raises nothing and returns a float in the interval (0, 1]: the divisor
    [a + 1] is at least 1, the argument [2 + min(b, c) / (a + 1)] of the
    logarithm is at least 2, its base-2 logarithm is at least 1, and so is
    the square root of that. *)
Theorem TullossS_sim_range (self : engine) (src tar : string) :
  0 <= card_a (self src tar) ->
  0 <= card_b (self src tar) ->
  0 <= card_c (self src tar) ->
  exists v,
    TullossS_sim self src tar = Returned (PyFloat v) /\ (0 < v <= 1)%R.
Proof. apply TullossS_sim_nonneg_cards. Qed.

(** ** The exact engine hands over non-negative cardinalities *)

Lemma count_nonneg (X : list string) (t : string) : 0 <= count X t.
Proof. unfold count. lia. Qed.

Lemma count_cons (x : string) (X : list string) (t : string) :
  count (x :: X) t = count X t + (if string_dec x t then 1 else 0).
Proof.
  unfold count. cbn [count_occ]. destruct (string_dec x t); lia.
Qed.

Lemma sum_counts_single (x : string) (l : list string) :
  NoDup l -> 0 <= sum_counts [x] l <= 1.
Proof.
  induction 1 as [|t l Hnin Hnd IH]; cbn [sum_counts fold_right]; [lia|].
  fold (sum_counts [x] l). rewrite count_cons.
  change (count [] t) with 0.
  destruct (string_dec x t) as [->|Hne]; [|lia].
  assert (H0 : sum_counts [t] l = 0).
  { clear IH Hnd. induction l as [|u l IHl]; [reflexivity|].
    cbn [sum_counts fold_right]. fold (sum_counts [t] l).
    rewrite count_cons. change (count [] u) with 0.
    destruct (string_dec t u) as [->|_].
    - exfalso. apply Hnin. now left.
    - rewrite IHl; [reflexivity|]. intros Hin. apply Hnin. now right. }
  lia.
Qed.

Lemma sum_counts_cons (x : string) (X l : list string) :
  sum_counts (x :: X) l = sum_counts X l + sum_counts [x] l.
Proof.
  induction l as [|t l IH]; [reflexivity|].
  cbn [sum_counts fold_right].
  fold (sum_counts (x :: X) l) (sum_counts X l) (sum_counts [x] l).
  rewrite IH, !count_cons. change (count [] t) with 0. lia.
Qed.

Lemma sum_counts_le_card (X l : list string) :
  NoDup l -> sum_counts X l <= card X.
Proof.
  intros Hnd. induction X as [|x X IH].
  - unfold card, len. cbn [List.length].
    induction l as [|t l IHl]; [reflexivity|].
    cbn [sum_counts fold_right]. fold (sum_counts [] l).
    change (count [] t) with 0.
    apply NoDup_cons_iff in Hnd. destruct Hnd as [_ Hnd].
    specialize (IHl Hnd). cbn in IHl. lia.
  - rewrite sum_counts_cons.
    pose proof (sum_counts_single x l Hnd).
    unfold card, len in *. cbn [List.length]. lia.
Qed.

Lemma intersection_card_bounds (Xs Xt : list string) :
  0 <= intersection_card Xs Xt /\
  intersection_card Xs Xt <= card Xs /\
  intersection_card Xs Xt <= card Xt.
Proof.
  unfold intersection_card.
  pose proof (sum_counts_le_card Xs _ (NoDup_nodup string_dec Xs)) as Hs.
  pose proof (sum_counts_le_card Xt _ (NoDup_nodup string_dec Xs)) as Ht.
  revert Hs Ht. generalize (card Xs) (card Xt).
  induction (nodup string_dec Xs) as [|t l IH]; intros ms mt Hs Ht.
  - cbn in *. lia.
  - cbn [fold_right sum_counts] in *.
    fold (sum_counts Xs l) in Hs. fold (sum_counts Xt l) in Ht.
    pose proof (count_nonneg Xs t) as Hcs.
    pose proof (count_nonneg Xt t) as Hct.
    destruct (IH (ms - count Xs t) (mt - count Xt t)) as (I0 & I1 & I2);
      lia.
Qed.

(** The cardinalities [a], [b] and [c] of the exact engine are
    non-negative, for every tokenizer and population. *)
Lemma compare_nonneg (tok : tokenizer) (n : Z) (src tar : string) :
  0 <= card_a (compare tok n src tar) /\
  0 <= card_b (compare tok n src tar) /\
  0 <= card_c (compare tok n src tar).
Proof.
  unfold compare. cbn [card_a card_b card_c].
  pose proof (intersection_card_bounds (tok src) (tok tar)). lia.
Qed.

(** With the exact engine, [TullossS.sim] returns a float in (0, 1] for
    every pair of strings. *)
Corollary TullossS_sim_range_exact
  (tok : tokenizer) (n : Z) (src tar : string) :
  exists v,
    TullossS_sim (compare tok n) src tar = Returned (PyFloat v) /\
    (0 < v <= 1)%R.
Proof.
  destruct (compare_nonneg tok n src tar) as (Ha & Hb & Hc).
  now apply TullossS_sim_nonneg_cards.
Qed.

(** An instance: 'cat' and 'hat' over single characters ([a = 2],
    [b = c = 1]). *)
Lemma TullossS_sim_range_witness :
  let self := compare characters 26 in
  0 <= card_a (self "cat" "hat")%string /\
  0 <= card_b (self "cat" "hat")%string /\
  0 <= card_c (self "cat" "hat")%string /\
  exists v,
    TullossS_sim self "cat" "hat" = Returned (PyFloat v) /\ (0 < v <= 1)%R.
Proof.
  intros self.
  assert (Ha : 0 <= card_a (self "cat" "hat")%string)
    by (vm_compute; discriminate).
  assert (Hb : 0 <= card_b (self "cat" "hat")%string)
    by (vm_compute; discriminate).
  assert (Hc : 0 <= card_c (self "cat" "hat")%string)
    by (vm_compute; discriminate).
  repeat split; try assumption.
  exact (TullossS_sim_range self "cat" "hat" Ha Hb Hc).
Defined.

(** * Further properties of the formulas *)

(** ** Doolittle *)

(** The square of [ad - bc] never exceeds the product of the four
    marginals. *)
Lemma Doolittle_numerator_le (a b c d : R) :
  (0 <= a -> 0 <= b -> 0 <= c -> 0 <= d ->
   (a * d - b * c) ^ 2 <= (a + b) * (a + c) * (b + d) * (c + d))%R.
Proof.
  intros Ha Hb Hc Hd.
  assert (Hab : (0 <= a * b)%R) by now apply Rmult_le_pos.
  assert (Hac : (0 <= a * c)%R) by now apply Rmult_le_pos.
  assert (Had : (0 <= a * d)%R) by now apply Rmult_le_pos.
  assert (Hbc : (0 <= b * c)%R) by now apply Rmult_le_pos.
  assert (Hbd : (0 <= b * d)%R) by now apply Rmult_le_pos.
  assert (Hcd : (0 <= c * d)%R) by now apply Rmult_le_pos.
  set (S := (a * d + b * c)%R).
  assert (HP : (S <= (a + b) * (c + d))%R) by (unfold S; lra).
  assert (HQ : (S <= (a + c) * (b + d))%R) by (unfold S; lra).
  assert (HS : (0 <= S)%R) by (unfold S; lra).
  assert (H1 : (S * S <= ((a + b) * (c + d)) * ((a + c) * (b + d)))%R).
  { apply Rmult_le_compat; assumption. }
  assert (H2 : ((a * d - b * c) ^ 2 <= S * S)%R).
  { unfold S.
    replace ((a * d + b * c) * (a * d + b * c))%R
      with ((a * d - b * c) ^ 2 + 4 * ((a * d) * (b * c)))%R by ring.
    pose proof (Rmult_le_pos _ _ Had Hbc). lra. }
  lra.
Qed.

(** X7. On non-negative cardinalities, [Doolittle.sim] raises
    [ZeroDivisionError] when one of the four marginals [a+b], [a+c], [b+d],
    [c+d] is zero; when none is, it returns a float between 0 and 1, which
    is 0 exactly when [ad = bc]. *)
Theorem Doolittle_sim_range (self : engine) (src tar : string) :
  0 <= card_a (self src tar) ->
  0 <= card_b (self src tar) ->
  0 <= card_c (self src tar) ->
  0 <= card_d (self src tar) ->
  (card_a (self src tar) + card_b (self src tar) = 0 \/
   card_a (self src tar) + card_c (self src tar) = 0 \/
   card_b (self src tar) + card_d (self src tar) = 0 \/
   card_c (self src tar) + card_d (self src tar) = 0 ->
   Doolittle_sim self src tar = Raised ZeroDivisionError) /\
  (0 < card_a (self src tar) + card_b (self src tar) ->
   0 < card_a (self src tar) + card_c (self src tar) ->
   0 < card_b (self src tar) + card_d (self src tar) ->
   0 < card_c (self src tar) + card_d (self src tar) ->
   exists v,
     Doolittle_sim self src tar = Returned v /\
     (0 <= v <= 1)%R /\
     (v = 0%R <->
      card_a (self src tar) * card_d (self src tar)
      = card_b (self src tar) * card_c (self src tar))).
Proof.
  intros Ha Hb Hc Hd. split.
  - intros H. apply Doolittle_sim_zero_denominator. cbv zeta.
    destruct H as [H|[H|[H|H]]]; rewrite H; lia.
  - intros Hab Hac Hbd Hcd. unfold Doolittle_sim.
    set (a := card_a (self src tar)) in *.
    set (b := card_b (self src tar)) in *.
    set (c := card_c (self src tar)) in *.
    set (d := card_d (self src tar)) in *.
    apply IZR_le in Ha, Hb, Hc, Hd.
    assert (Rab : (0 < IZR a + IZR b)%R)
      by (rewrite <- plus_IZR; now apply IZR_lt).
    assert (Rac : (0 < IZR a + IZR c)%R)
      by (rewrite <- plus_IZR; now apply IZR_lt).
    assert (Rbd : (0 < IZR b + IZR d)%R)
      by (rewrite <- plus_IZR; now apply IZR_lt).
    assert (Rcd : (0 < IZR c + IZR d)%R)
      by (rewrite <- plus_IZR; now apply IZR_lt).
    set (den := ((IZR a + IZR b) * (IZR a + IZR c)
                 * (IZR b + IZR d) * (IZR c + IZR d))%R).
    assert (Hden : (0 < den)%R).
    { unfold den. repeat apply Rmult_lt_0_compat; assumption. }
    rewrite truediv_nonzero by lra.
    eexists; split; [reflexivity|].
    pose proof (Doolittle_numerator_le _ _ _ _ Ha Hb Hc Hd) as Hnum.
    fold den in Hnum.
    assert (Hsq : (0 <= (IZR a * IZR d - IZR b * IZR c) ^ 2)%R)
      by apply pow2_ge_0.
    assert (Hinv : (0 < / den)%R) by now apply Rinv_0_lt_compat.
    split; [split|].
    + unfold Rdiv. apply Rmult_le_pos; lra.
    + apply (Rmult_le_reg_r den); [exact Hden|].
      unfold Rdiv. rewrite Rmult_assoc, Rinv_l by lra. lra.
    + split.
      * intros H0.
        assert (Hz : ((IZR a * IZR d - IZR b * IZR c) ^ 2 = 0)%R).
        { replace ((IZR a * IZR d - IZR b * IZR c) ^ 2)%R
            with ((IZR a * IZR d - IZR b * IZR c) ^ 2 / den * den)%R
            by (field; lra).
          rewrite H0. ring. }
        assert (Hz' : (IZR a * IZR d - IZR b * IZR c = 0)%R).
        { assert (Hxx : ((IZR a * IZR d - IZR b * IZR c)
                         * (IZR a * IZR d - IZR b * IZR c) = 0)%R)
            by (rewrite <- Hz; ring).
          destruct (Rmult_integral _ _ Hxx); assumption. }
        apply eq_IZR. rewrite !mult_IZR. lra.
      * intros E. apply (f_equal IZR) in E. rewrite !mult_IZR in E.
        replace (IZR a * IZR d - IZR b * IZR c)%R with 0%R by lra.
        unfold Rdiv. ring.
Qed.

(** An instance: 'cat' and 'hat' over single characters and a population
    of 26 ([a = 2], [b = c = 1], [d = 22]). *)
Lemma Doolittle_sim_range_witness :
  let self := compare characters 26 in
  0 <= card_a (self "cat" "hat")%string /\
  0 <= card_b (self "cat" "hat")%string /\
  0 <= card_c (self "cat" "hat")%string /\
  0 <= card_d (self "cat" "hat")%string /\
  exists v,
    Doolittle_sim self "cat" "hat" = Returned v /\ (0 <= v <= 1)%R.
Proof.
  intros self.
  assert (Hk : self "cat"%string "hat"%string = mk_cards 2 1 1 22 26)
    by reflexivity.
  assert (Ha : 0 <= card_a (self "cat" "hat")%string) by (rewrite Hk; cbn; lia).
  assert (Hb : 0 <= card_b (self "cat" "hat")%string) by (rewrite Hk; cbn; lia).
  assert (Hc : 0 <= card_c (self "cat" "hat")%string) by (rewrite Hk; cbn; lia).
  assert (Hd : 0 <= card_d (self "cat" "hat")%string) by (rewrite Hk; cbn; lia).
  repeat (split; [assumption|]).
  destruct (proj2 (Doolittle_sim_range self "cat" "hat" Ha Hb Hc Hd))
    as (v & Hv & Hr & _); try (rewrite Hk; cbn; lia).
  exists v. split; assumption.
Defined.

(** ** Tulloss' S *)

(** X8. On non-negative cardinalities, [TullossS.sim] returns exactly 1.0
    when [min(b, c) = 0], that is when one token multiset is contained in
    the other (an empty string against any string included), and a float
    strictly below 1 otherwise. *)
Theorem TullossS_sim_one (self : engine) (src tar : string) :
  0 <= card_a (self src tar) ->
  0 <= card_b (self src tar) ->
  0 <= card_c (self src tar) ->
  (Z.min (card_b (self src tar)) (card_c (self src tar)) = 0 ->
   TullossS_sim self src tar = Returned (PyFloat 1)) /\
  (0 < Z.min (card_b (self src tar)) (card_c (self src tar)) ->
   exists v,
     TullossS_sim self src tar = Returned (PyFloat v) /\ (0 < v < 1)%R).
Proof.
  intros Ha Hb Hc. unfold TullossS_sim.
  set (a := card_a (self src tar)) in *.
  set (b := card_b (self src tar)) in *.
  set (c := card_c (self src tar)) in *.
  assert (Hmin : Rmin (IZR b) (IZR c) = IZR (Z.min b c)).
  { destruct (Z.le_ge_cases b c) as [H|H].
    - rewrite Z.min_l by exact H. apply Rmin_left. now apply IZR_le.
    - rewrite Z.min_r by exact H. apply Rmin_right. now apply IZR_le. }
  rewrite Hmin.
  assert (Ra : (0 <= IZR a)%R) by now apply IZR_le.
  assert (H2 : (0 < ln 2)%R).
  { rewrite <- ln_1. apply ln_increasing; lra. }
  rewrite truediv_nonzero by lra. cbn [bind].
  split.
  - intros ->.
    replace (2 + 0 / (IZR a + 1))%R with 2%R by (field; lra).
    unfold log. destruct (Rle_dec 2 0); [lra|].
    rewrite truediv_nonzero by lra. cbn [bind].
    replace (ln 2 / ln 2)%R with 1%R by (field; lra).
    rewrite pow_half_nonneg by lra. rewrite sqrt_1.
    unfold div_val. rewrite truediv_nonzero by lra. cbn [bind].
    do 2 f_equal. field.
  - intros Hpos. apply IZR_lt in Hpos.
    set (q := (IZR (Z.min b c) / (IZR a + 1))%R).
    assert (Hq : (0 < q)%R).
    { unfold q, Rdiv. apply Rmult_lt_0_compat; [exact Hpos|].
      apply Rinv_0_lt_compat. lra. }
    unfold log. destruct (Rle_dec (2 + q) 0); [lra|].
    destruct (Rle_dec 2 0); [lra|].
    rewrite truediv_nonzero by lra. cbn [bind].
    assert (Hl : (1 < ln (2 + q) / ln 2)%R).
    { apply (Rmult_lt_reg_r (ln 2)); [exact H2|].
      unfold Rdiv. rewrite Rmult_assoc, Rinv_l by lra.
      rewrite Rmult_1_l, Rmult_1_r. apply ln_increasing; lra. }
    rewrite pow_half_nonneg by lra.
    assert (Hs : (1 < sqrt (ln (2 + q) / ln 2))%R).
    { rewrite <- sqrt_1 at 1. apply sqrt_lt_1_alt. lra. }
    unfold div_val. rewrite truediv_nonzero by lra. cbn [bind].
    eexists; split; [reflexivity|].
    unfold Rdiv. rewrite Rmult_1_l. split.
    + apply Rinv_0_lt_compat. lra.
    + rewrite <- Rinv_1. apply Rinv_lt_contravar; lra.
Qed.

(** An instance: the empty string against 'hat' ([a = 0], [b = 0],
    [c = 3]). *)
Lemma TullossS_sim_one_witness :
  let self := compare characters 26 in
  0 <= card_a (self "" "hat")%string /\
  0 <= card_b (self "" "hat")%string /\
  0 <= card_c (self "" "hat")%string /\
  Z.min (card_b (self "" "hat")%string) (card_c (self "" "hat")%string) = 0 /\
  TullossS_sim self "" "hat" = Returned (PyFloat 1).
Proof.
  intros self.
  assert (Hk : self ""%string "hat"%string = mk_cards 0 0 3 23 26)
    by reflexivity.
  assert (Ha : 0 <= card_a (self "" "hat")%string) by (rewrite Hk; cbn; lia).
  assert (Hb : 0 <= card_b (self "" "hat")%string) by (rewrite Hk; cbn; lia).
  assert (Hc : 0 <= card_c (self "" "hat")%string) by (rewrite Hk; cbn; lia).
  assert (Hm : Z.min (card_b (self "" "hat")%string)
                     (card_c (self "" "hat")%string) = 0)
    by (rewrite Hk; reflexivity).
  repeat (split; [assumption|]).
  exact (proj1 (TullossS_sim_one self "" "hat" Ha Hb Hc) Hm).
Defined.

(** ** Pearson III *)

(** X9. When the [phi] of the base class is non-negative and the population
    is positive, [PearsonIII.corr] returns a float at least 0 and strictly
    below 1, which is 0 exactly when [phi] is 0.  When [phi] is the
    opposite of the population cardinality (a [phi] of 0 over an empty
    population included) it raises [ZeroDivisionError].  An exception of
    the base class is passed on. *)
Theorem PearsonIII_corr_range
  (self : engine) (phi_corr : string -> string -> outcome R)
  (src tar : string) :
  (forall phi,
     phi_corr src tar = Returned phi ->
     (0 <= phi)%R -> 0 < card_n (self src tar) ->
     exists v,
       PearsonIII_corr self phi_corr src tar = Returned (PyFloat v) /\
       (0 <= v < 1)%R /\ (v = 0%R <-> phi = 0%R)) /\
  (forall phi,
     phi_corr src tar = Returned phi ->
     (IZR (card_n (self src tar)) + phi = 0)%R ->
     PearsonIII_corr self phi_corr src tar = Raised ZeroDivisionError) /\
  (forall e,
     phi_corr src tar = Raised e ->
     PearsonIII_corr self phi_corr src tar = Raised e).
Proof.
  unfold PearsonIII_corr. split; [|split].
  - intros phi Hphi Hpos Hn. rewrite Hphi. cbn [bind].
    apply IZR_lt in Hn.
    set (n := IZR (card_n (self src tar))) in *.
    rewrite truediv_nonzero by lra. cbn [bind].
    assert (Hinv : (0 < / (n + phi))%R) by (apply Rinv_0_lt_compat; lra).
    assert (Hq0 : (0 <= phi / (n + phi))%R)
      by (unfold Rdiv; apply Rmult_le_pos; lra).
    assert (Hq1 : (phi / (n + phi) < 1)%R).
    { apply (Rmult_lt_reg_r (n + phi)); [lra|].
      unfold Rdiv. rewrite Rmult_assoc, Rinv_l by lra. lra. }
    rewrite pow_half_nonneg by exact Hq0.
    eexists; split; [reflexivity|]. split; [split|].
    + apply sqrt_pos.
    + rewrite <- sqrt_1. apply sqrt_lt_1_alt. lra.
    + split.
      * intros H0. apply sqrt_eq_0 in H0; [|exact Hq0].
        replace phi with (phi / (n + phi) * (n + phi))%R by (field; lra).
        rewrite H0. ring.
      * intros ->. unfold Rdiv. rewrite Rmult_0_l. apply sqrt_0.
  - intros phi Hphi H0. rewrite Hphi. cbn [bind]. rewrite H0.
    now rewrite truediv_zero.
  - intros e He. now rewrite He.
Qed.

(** An instance: a [phi] of 1/2 over a population of 26. *)
Lemma PearsonIII_corr_range_witness :
  let self := compare characters 26 in
  let phi_corr := fun (_ _ : string) => Returned (1 / 2)%R in
  (0 <= 1 / 2)%R /\ 0 < card_n (self "cat" "hat")%string /\
  exists v,
    PearsonIII_corr self phi_corr "cat" "hat" = Returned (PyFloat v) /\
    (0 <= v < 1)%R.
Proof.
  intros self phi_corr.
  assert (Hp : (0 <= 1 / 2)%R) by lra.
  assert (Hn : 0 < card_n (self "cat" "hat")%string) by reflexivity.
  split; [exact Hp|]. split; [exact Hn|].
  destruct (proj1 (PearsonIII_corr_range self phi_corr "cat" "hat")
              (1 / 2)%R eq_refl Hp Hn) as (v & Hv & Hr & _).
  exists v. split; assumption.
Defined.

(** ** Dennis *)

Section DennisProperties.

Variable self : engine.
Variable src tar : string.
Hypothesis not_both_empty :
  (String.length src =? 0)%nat && (String.length tar =? 0)%nat = false.

Local Abbreviation a := (card_a (self src tar)).
Local Abbreviation b := (card_b (self src tar)).
Local Abbreviation c := (card_c (self src tar)).
Local Abbreviation n := (card_n (self src tar)).

(** The expected intersection [abacn], when the population is positive. *)
Local Abbreviation E := (IZR (a + b) * IZR (a + c) / IZR n)%R.

Lemma Dennis_sim_score_value :
  0 <= a -> 0 <= b -> 0 <= c -> 0 < n ->
  (0 <= E)%R /\
  ((IZR a - E = 0)%R ->
   Dennis_sim_score self src tar = Returned (PyFloat 0)) /\
  ((IZR a - E <> 0)%R ->
   (0 < E)%R /\
   Dennis_sim_score self src tar
   = Returned (PyFloat ((IZR a - E) / sqrt E))).
Proof.
  intros Ha Hb Hc Hn. unfold Dennis_sim_score. rewrite not_both_empty.
  unfold src_card, tar_card.
  assert (Rn : (0 < IZR n)%R) by now apply IZR_lt.
  assert (RX : (0 <= IZR (a + b))%R) by (apply IZR_le; lia).
  assert (RY : (0 <= IZR (a + c))%R) by (apply IZR_le; lia).
  assert (HE : (0 <= E)%R).
  { unfold Rdiv. apply Rmult_le_pos; [now apply Rmult_le_pos|].
    left. now apply Rinv_0_lt_compat. }
  split; [exact HE|].
  rewrite truediv_nonzero by lra. cbn [bind].
  split.
  - intros H0. destruct (Req_dec_T (IZR a - E) 0); [reflexivity|contradiction].
  - intros Hne.
    destruct (Req_dec_T (IZR a - E) 0) as [H0|_]; [contradiction|].
    assert (HEpos : (0 < E)%R).
    { destruct HE as [HE|HE]; [exact HE|]. exfalso. apply Hne.
      assert (Hxy : (IZR (a + b) * IZR (a + c) = 0)%R).
      { replace (IZR (a + b) * IZR (a + c))%R with (E * IZR n)%R
          by (field; lra).
        rewrite <- HE. ring. }
      rewrite <- HE.
      assert (Ha0 : a = 0).
      { destruct (Rmult_integral _ _ Hxy) as [H|H]; apply eq_IZR in H; lia. }
      rewrite Ha0. lra. }
    split; [exact HEpos|].
    rewrite pow_half_nonneg by lra.
    unfold div_val. rewrite truediv_nonzero; [reflexivity|].
    pose proof (sqrt_lt_R0 _ HEpos). lra.
Qed.

(** The correlation [(a - E) / sqrt(E) / sqrt(n)] lies between -1 and 1. *)
Lemma Dennis_corr_bound :
  0 <= a -> 0 <= b -> 0 <= c -> a + b <= n -> a + c <= n -> 0 < n ->
  (0 < E)%R ->
  (-1 <= (IZR a - E) / sqrt E / sqrt (IZR n) <= 1)%R.
Proof.
  intros Ha Hb Hc HX HY Hn HE.
  assert (Rn : (0 < IZR n)%R) by now apply IZR_lt.
  assert (Ra : (0 <= IZR a)%R) by now apply IZR_le.
  assert (RaX : (IZR a <= IZR (a + b))%R) by (apply IZR_le; lia).
  assert (RaY : (IZR a <= IZR (a + c))%R) by (apply IZR_le; lia).
  assert (RXn : (IZR (a + b) <= IZR n)%R) by now apply IZR_le.
  assert (RYn : (IZR (a + c) <= IZR n)%R) by now apply IZR_le.
  remember (IZR (a + b)) as X eqn:EX. remember (IZR (a + c)) as Y eqn:EY.
  remember (X * Y / IZR n)%R as e eqn:Ee.
  set (g := sqrt (X * Y)).
  assert (HXY : (0 <= X * Y)%R) by (apply Rmult_le_pos; lra).
  assert (Hgg : (g * g = X * Y)%R) by now apply sqrt_sqrt.
  assert (Hen : (e * IZR n = X * Y)%R) by (rewrite Ee; field; lra).
  assert (Hg : (sqrt e * sqrt (IZR n) = g)%R).
  { rewrite <- sqrt_mult by lra. unfold g. now rewrite Hen. }
  assert (Hag : (IZR a <= g)%R).
  { rewrite <- (sqrt_square (IZR a)) by exact Ra. apply sqrt_le_1_alt.
    apply Rmult_le_compat; lra. }
  assert (Hgn : (g <= IZR n)%R).
  { rewrite <- (sqrt_square (IZR n)) by lra. apply sqrt_le_1_alt.
    apply Rmult_le_compat; lra. }
  assert (Hg0 : (0 <= g)%R) by apply sqrt_pos.
  assert (HEg : (e <= g)%R).
  { apply (Rmult_le_reg_r (IZR n)); [exact Rn|]. rewrite Hen, <- Hgg.
    apply Rmult_le_compat_l; assumption. }
  assert (Hse : (0 < sqrt e)%R) by now apply sqrt_lt_R0.
  assert (Hsn : (0 < sqrt (IZR n))%R) by now apply sqrt_lt_R0.
  assert (Hgpos : (0 < g)%R).
  { rewrite <- Hg. now apply Rmult_lt_0_compat. }
  replace ((IZR a - e) / sqrt e / sqrt (IZR n))%R
    with ((IZR a - e) / g)%R by (rewrite <- Hg; field; lra).
  split.
  - apply (Rmult_le_reg_r g); [exact Hgpos|].
    unfold Rdiv. rewrite Rmult_assoc, Rinv_l by lra. lra.
  - apply (Rmult_le_reg_r g); [exact Hgpos|].
    unfold Rdiv. rewrite Rmult_assoc, Rinv_l by lra. lra.
Qed.

End DennisProperties.

(** X10. For two strings that are not both empty and non-negative
    cardinalities [a], [b], [c]: over a positive population
    [Dennis.sim_score] returns a float (it raises nothing and the square
    root stays real), which is 0 exactly when [a * n = (a+b) * (a+c)], as
    it is when either string has no token; over a population of 0 it
    raises [ZeroDivisionError]. *)
Theorem Dennis_sim_score_total (self : engine) (src tar : string) :
  (String.length src =? 0)%nat && (String.length tar =? 0)%nat = false ->
  0 <= card_a (self src tar) ->
  0 <= card_b (self src tar) ->
  0 <= card_c (self src tar) ->
  (0 < card_n (self src tar) ->
   exists v,
     Dennis_sim_score self src tar = Returned (PyFloat v) /\
     (v = 0%R <->
      card_a (self src tar) * card_n (self src tar)
      = (card_a (self src tar) + card_b (self src tar))
        * (card_a (self src tar) + card_c (self src tar)))) /\
  (card_n (self src tar) = 0 ->
   Dennis_sim_score self src tar = Raised ZeroDivisionError).
Proof.
  intros Hne Ha Hb Hc. split.
  - intros Hn.
    destruct (Dennis_sim_score_value self src tar Hne Ha Hb Hc Hn)
      as (HE & H0 & H1).
    assert (Rn : (0 < IZR (card_n (self src tar)))%R) by now apply IZR_lt.
    assert (Hiff : (IZR (card_a (self src tar))
                    - IZR (card_a (self src tar) + card_b (self src tar))
                      * IZR (card_a (self src tar) + card_c (self src tar))
                      / IZR (card_n (self src tar)) = 0)%R
                   <-> card_a (self src tar) * card_n (self src tar)
                       = (card_a (self src tar) + card_b (self src tar))
                         * (card_a (self src tar) + card_c (self src tar))).
    { split.
      - intros H. apply eq_IZR. rewrite !mult_IZR.
        apply (Rmult_eq_reg_r (/ IZR (card_n (self src tar))));
          [|apply Rinv_neq_0_compat; lra].
        rewrite Rmult_assoc, Rinv_r by lra. unfold Rdiv in H. lra.
      - intros H. apply (f_equal IZR) in H. rewrite !mult_IZR in H.
        unfold Rdiv. rewrite <- H. field. lra. }
    destruct (Req_dec_T
                (IZR (card_a (self src tar))
                 - IZR (card_a (self src tar) + card_b (self src tar))
                   * IZR (card_a (self src tar) + card_c (self src tar))
                   / IZR (card_n (self src tar))) 0) as [Hz|Hnz].
    + exists 0%R. split; [now apply H0|].
      split; [intros _; now apply Hiff|reflexivity].
    + destruct (H1 Hnz) as [HEpos Hv].
      eexists; split; [exact Hv|]. split.
      * intros Hq. exfalso. apply Hnz.
        pose proof (sqrt_lt_R0 _ HEpos) as Hs.
        match type of Hq with (?x / ?y = 0)%R =>
          replace x with (x / y * y)%R by (field; lra) end.
        rewrite Hq. ring.
      * intros H. exfalso. apply Hnz. now apply Hiff.
  - intros Hn. unfold Dennis_sim_score. rewrite Hne, Hn.
    now rewrite truediv_zero.
Qed.

(** An instance: 'cat' and 'hat' over single characters and a population
    of 26. *)
Lemma Dennis_sim_score_total_witness :
  let self := compare characters 26 in
  (String.length "cat" =? 0)%nat && (String.length "hat" =? 0)%nat = false /\
  0 <= card_a (self "cat" "hat")%string /\
  0 <= card_b (self "cat" "hat")%string /\
  0 <= card_c (self "cat" "hat")%string /\
  0 < card_n (self "cat" "hat")%string /\
  exists v, Dennis_sim_score self "cat" "hat" = Returned (PyFloat v).
Proof.
  intros self.
  assert (Hk : self "cat"%string "hat"%string = mk_cards 2 1 1 22 26)
    by reflexivity.
  assert (Hne : (String.length "cat" =? 0)%nat
                && (String.length "hat" =? 0)%nat = false) by reflexivity.
  assert (Ha : 0 <= card_a (self "cat" "hat")%string) by (rewrite Hk; cbn; lia).
  assert (Hb : 0 <= card_b (self "cat" "hat")%string) by (rewrite Hk; cbn; lia).
  assert (Hc : 0 <= card_c (self "cat" "hat")%string) by (rewrite Hk; cbn; lia).
  assert (Hn : 0 < card_n (self "cat" "hat")%string) by (rewrite Hk; cbn; lia).
  repeat (split; [assumption|]).
  destruct (proj1 (Dennis_sim_score_total self "cat" "hat" Hne Ha Hb Hc) Hn)
    as (v & Hv & _).
  now exists v.
Defined.

(** X11. For two strings that are not both empty, whose cardinalities
    [a], [b], [c], [d] are non-negative and add up to a positive population
    [n], [Dennis.corr] returns a float between -1 and 1 and [Dennis.sim] a
    float between 0 and 1, whatever the instance held before the call. *)
Theorem Dennis_corr_sim_range
  (self : engine) (stored : Cardinalities) (src tar : string) :
  (String.length src =? 0)%nat && (String.length tar =? 0)%nat = false ->
  0 <= card_a (self src tar) ->
  0 <= card_b (self src tar) ->
  0 <= card_c (self src tar) ->
  0 <= card_d (self src tar) ->
  card_n (self src tar)
  = card_a (self src tar) + card_b (self src tar)
    + card_c (self src tar) + card_d (self src tar) ->
  0 < card_n (self src tar) ->
  exists r,
    Dennis_corr self stored src tar = Returned (PyFloat r) /\
    (-1 <= r <= 1)%R /\
    Dennis_sim self stored src tar = Returned (PyFloat ((1 + r) / 2)) /\
    (0 <= (1 + r) / 2 <= 1)%R.
Proof.
  intros Hne Ha Hb Hc Hd Hsum Hn.
  assert (Rn : (0 < IZR (card_n (self src tar)))%R) by now apply IZR_lt.
  assert (Hsn : (0 < sqrt (IZR (card_n (self src tar))))%R)
    by now apply sqrt_lt_R0.
  destruct (Dennis_sim_score_value self src tar Hne Ha Hb Hc Hn)
    as (HE & H0 & H1).
  assert (Hcorr : forall v,
            Dennis_sim_score self src tar = Returned (PyFloat v) ->
            Dennis_corr self stored src tar
            = Returned (PyFloat (v / sqrt (IZR (card_n (self src tar)))))).
  { intros v Hv. unfold Dennis_corr, Dennis_stored_after.
    rewrite Hv, Hne. cbn [bind]. rewrite pow_half_nonneg by lra.
    unfold val_div, div_val. now rewrite truediv_nonzero by lra. }
  assert (Hsim : forall r,
            Dennis_corr self stored src tar = Returned (PyFloat r) ->
            Dennis_sim self stored src tar
            = Returned (PyFloat ((1 + r) / 2))).
  { intros r Hr. unfold Dennis_sim. rewrite Hr. cbn [bind add_val].
    unfold val_div, div_val. now rewrite truediv_nonzero by lra. }
  destruct (Req_dec_T
              (IZR (card_a (self src tar))
               - IZR (card_a (self src tar) + card_b (self src tar))
                 * IZR (card_a (self src tar) + card_c (self src tar))
                 / IZR (card_n (self src tar))) 0) as [Hz|Hnz].
  - exists (0 / sqrt (IZR (card_n (self src tar))))%R.
    pose proof (Hcorr _ (H0 Hz)) as Hr.
    split; [exact Hr|].
    replace (0 / sqrt (IZR (card_n (self src tar))))%R with 0%R
      in * by (field; lra).
    split; [lra|]. split; [now apply Hsim|lra].
  - destruct (H1 Hnz) as [HEpos Hv].
    eexists. pose proof (Hcorr _ Hv) as Hr.
    split; [exact Hr|].
    pose proof (Dennis_corr_bound self src tar Ha Hb Hc ltac:(lia)
                  ltac:(lia) Hn HEpos) as Hb1.
    split; [exact Hb1|]. split; [now apply Hsim|lra].
Qed.

(** An instance: 'cat' and 'hat' over single characters and a population
    of 26, on an instance that held nothing. *)
Lemma Dennis_corr_sim_range_witness :
  let self := compare characters 26 in
  let stored := mk_cards 0 0 0 0 0 in
  (String.length "cat" =? 0)%nat && (String.length "hat" =? 0)%nat = false /\
  0 <= card_a (self "cat" "hat")%string /\
  0 <= card_b (self "cat" "hat")%string /\
  0 <= card_c (self "cat" "hat")%string /\
  0 <= card_d (self "cat" "hat")%string /\
  card_n (self "cat" "hat")%string
  = card_a (self "cat" "hat")%string + card_b (self "cat" "hat")%string
    + card_c (self "cat" "hat")%string + card_d (self "cat" "hat")%string /\
  0 < card_n (self "cat" "hat")%string /\
  exists r,
    Dennis_corr self stored "cat" "hat" = Returned (PyFloat r) /\
    (-1 <= r <= 1)%R.
Proof.
  intros self stored.
  assert (Hk : self "cat"%string "hat"%string = mk_cards 2 1 1 22 26)
    by reflexivity.
  assert (Hne : (String.length "cat" =? 0)%nat
                && (String.length "hat" =? 0)%nat = false) by reflexivity.
  assert (Ha : 0 <= card_a (self "cat" "hat")%string) by (rewrite Hk; cbn; lia).
  assert (Hb : 0 <= card_b (self "cat" "hat")%string) by (rewrite Hk; cbn; lia).
  assert (Hc : 0 <= card_c (self "cat" "hat")%string) by (rewrite Hk; cbn; lia).
  assert (Hd : 0 <= card_d (self "cat" "hat")%string) by (rewrite Hk; cbn; lia).
  assert (Hs : card_n (self "cat" "hat")%string
               = card_a (self "cat" "hat")%string
                 + card_b (self "cat" "hat")%string
                 + card_c (self "cat" "hat")%string
                 + card_d (self "cat" "hat")%string)
    by (rewrite Hk; reflexivity).
  assert (Hn : 0 < card_n (self "cat" "hat")%string) by (rewrite Hk; cbn; lia).
  repeat (split; [assumption|]).
  destruct (Dennis_corr_sim_range self stored "cat" "hat"
              Hne Ha Hb Hc Hd Hs Hn) as (r & Hr & Hb1 & _).
  exists r. split; assumption.
Defined.

(** X12. For two empty strings [Dennis.sim_score] returns before the
    instance tokenizes, so [Dennis.corr] and [Dennis.sim] divide by the
    population cardinality that the instance holds from before the call:
    when that cardinality is positive they return 0.0 and 0.5, and when it
    is 0 both raise [ZeroDivisionError]. *)
Theorem Dennis_corr_sim_empty (self : engine) (stored : Cardinalities) :
  (0 < card_n stored ->
   Dennis_corr self stored "" "" = Returned (PyFloat 0) /\
   Dennis_sim self stored "" "" = Returned (PyFloat (1 / 2))) /\
  (card_n stored = 0 ->
   Dennis_corr self stored "" "" = Raised ZeroDivisionError /\
   Dennis_sim self stored "" "" = Raised ZeroDivisionError).
Proof.
  unfold Dennis_sim, Dennis_corr, Dennis_stored_after, Dennis_sim_score.
  cbn [String.length Nat.eqb andb bind]. split.
  - intros Hn. apply IZR_lt in Hn.
    pose proof (sqrt_lt_R0 _ Hn) as Hs.
    rewrite pow_half_nonneg by lra.
    unfold val_div, div_val. rewrite truediv_nonzero by lra. cbn [bind].
    replace (0 / sqrt (IZR (card_n stored)))%R with 0%R by (field; lra).
    split; [reflexivity|]. cbn [bind add_val].
    rewrite truediv_nonzero by lra. cbn [bind]. do 2 f_equal. lra.
  - intros ->. rewrite pow_half_nonneg by lra. rewrite sqrt_0.
    unfold val_div, div_val. rewrite truediv_zero. cbn [bind].
    split; reflexivity.
Qed.

(** An instance: an instance that holds a population of 26, and one that
    holds an empty population. *)
Lemma Dennis_corr_sim_empty_witness :
  let self := compare characters 26 in
  0 < card_n (mk_cards 2 1 1 22 26) /\
  Dennis_sim self (mk_cards 2 1 1 22 26) "" "" = Returned (PyFloat (1 / 2))
  /\
  card_n (mk_cards 0 0 0 0 0) = 0 /\
  Dennis_sim self (mk_cards 0 0 0 0 0) "" "" = Raised ZeroDivisionError.
Proof.
  intros self.
  assert (H1 : 0 < card_n (mk_cards 2 1 1 22 26)) by (cbn; lia).
  assert (H2 : card_n (mk_cards 0 0 0 0 0) = 0) by reflexivity.
  split; [exact H1|].
  split; [exact (proj2 (proj1 (Dennis_corr_sim_empty self _) H1))|].
  split; [exact H2|].
  exact (proj2 (proj2 (Dennis_corr_sim_empty self _) H2)).
Defined.

(** * Properties of the MetaSoundex recoding *)

Import Hybrid.

(** X13. Line 160 of [MetaSoundex.metasoundex] raises [IndexError] on an
    empty code.  On any other code it changes the first character only:
    an uppercase letter becomes a digit, every other character stays, so
    the result never starts with an uppercase letter; recoding the result
    again changes nothing. *)
Theorem recode_first_character :
  recode "" = Raised IndexError /\
  forall ch rest,
    exists ch',
      recode (String ch rest) = Returned (String ch' rest) /\
      is_upper ch' = false /\
      (if is_upper ch then is_digit ch' = true else ch' = ch) /\
      recode (String ch' rest) = Returned (String ch' rest).
Proof.
  split; [reflexivity|]. intros ch rest.
  exists (translate _trans ch). split; [reflexivity|].
  unfold recode.
  assert (H : is_upper (translate _trans ch) = false /\
              (if is_upper ch then is_digit (translate _trans ch) = true
               else translate _trans ch = ch) /\
              translate _trans (translate _trans ch) = translate _trans ch).
  { destruct ch as [[] [] [] [] [] [] [] []]; vm_compute; auto. }
  destruct H as (H1 & H2 & H3). rewrite H3. auto.
Qed.

(** * Properties of the SonoriPy tokenizer *)

Import SonoriPyTokenizer.

Lemma split_from_separator (s1 : string) (sp : ascii) (s2 : string) :
  is_space sp = true ->
  forall cur,
  split_from cur (s1 ++ String sp s2)
  = (split_from cur s1 ++ split_from [] s2)%list.
Proof.
  intros Hsp. induction s1 as [|ch s1 IH]; intros cur; cbn [append split_from].
  - now rewrite Hsp.
  - destruct (is_space ch).
    + now rewrite IH, app_assoc.
    + apply IH.
Qed.

Lemma split_from_leading_spaces (sep s : string) :
  (forall ch, In ch (list_ascii_of_string sep) -> is_space ch = true) ->
  split_from [] (sep ++ s) = split_from [] s.
Proof.
  induction sep as [|ch sep IH]; intros H; cbn [append split_from];
    [reflexivity|].
  rewrite (H ch) by (cbn; auto). cbn [flush app].
  apply IH. intros c Hc. apply H. cbn; auto.
Qed.

Lemma ordered_list_flat_map (SonoriPy : string -> list string) (s : string) :
  ordered_list SonoriPy s = flat_map SonoriPy (split s).
Proof.
  unfold ordered_list.
  assert (H : forall l acc,
            fold_left (fun acc word => (acc ++ SonoriPy word)%list) l acc
            = (acc ++ flat_map SonoriPy l)%list).
  { induction l as [|w l IH]; intros acc; cbn [fold_left flat_map].
    - now rewrite app_nil_r.
    - now rewrite IH, app_assoc. }
  apply H.
Qed.

(** X14. Tokenizing two strings joined by a non-empty run of whitespace
    gives the tokens of the first followed by the tokens of the second,
    whatever the syllabifier. *)
Theorem ordered_list_join
  (SonoriPy : string -> list string) (s1 sep s2 : string) :
  sep <> ""%string ->
  (forall ch, In ch (list_ascii_of_string sep) -> is_space ch = true) ->
  ordered_list SonoriPy (s1 ++ sep ++ s2)
  = (ordered_list SonoriPy s1 ++ ordered_list SonoriPy s2)%list.
Proof.
  intros Hne Hsp. rewrite !ordered_list_flat_map. unfold split.
  destruct sep as [|sp sep]; [contradiction|].
  cbn [append]. rewrite split_from_separator by (apply Hsp; cbn; auto).
  rewrite split_from_leading_spaces
    by (intros c Hc; apply Hsp; cbn; auto).
  apply flat_map_app.
Qed.

(** An instance: two words joined by a space and a tab, with a syllabifier
    that returns its word whole. *)
Lemma ordered_list_join_witness :
  let whole := fun w : string => [w] in
  let sep := String " " (String "009" EmptyString) in
  sep <> ""%string /\
  (forall ch, In ch (list_ascii_of_string sep) -> is_space ch = true) /\
  ordered_list whole ("ab" ++ sep ++ "cd") = ["ab"%string; "cd"%string].
Proof.
  intros whole sep.
  assert (Hne : sep <> ""%string) by discriminate.
  assert (Hsp : forall ch, In ch (list_ascii_of_string sep) ->
                           is_space ch = true).
  { intros ch [<-|[<-|[]]]; reflexivity. }
  split; [exact Hne|]. split; [exact Hsp|].
  rewrite (ordered_list_join whole "ab" sep "cd" Hne Hsp). reflexivity.
Defined.

Lemma flush_words (cur : list ascii) :
  (forall ch, In ch cur -> is_space ch = false) ->
  forall w, In w (flush cur) ->
  w <> ""%string /\
  forall ch, In ch (list_ascii_of_string w) -> is_space ch = false.
Proof.
  intros Hcur w Hw. destruct cur as [|c cur]; [destruct Hw|].
  destruct Hw as [<-|[]]. split.
  - intros H. apply (f_equal list_ascii_of_string) in H.
    rewrite list_ascii_of_string_of_list_ascii in H. cbn in H.
    destruct (rev cur); discriminate.
  - intros ch Hch. rewrite list_ascii_of_string_of_list_ascii in Hch.
    apply Hcur. now apply in_rev.
Qed.

Lemma split_from_words (s : string) :
  forall cur,
  (forall ch, In ch cur -> is_space ch = false) ->
  forall w, In w (split_from cur s) ->
  w <> ""%string /\
  forall ch, In ch (list_ascii_of_string w) -> is_space ch = false.
Proof.
  induction s as [|c s IH]; intros cur Hcur w Hw; cbn [split_from] in Hw.
  - now apply (flush_words cur).
  - destruct (is_space c) eqn:Ec.
    + apply in_app_or in Hw. destruct Hw as [Hw|Hw].
      * now apply (flush_words cur).
      * apply (IH []); [intros ch []|exact Hw].
    + apply (IH (c :: cur)); [|exact Hw].
      intros ch [<-|H]; [exact Ec|now apply Hcur].
Qed.

Lemma split_from_no_space (s : string) :
  (forall ch, In ch (list_ascii_of_string s) -> is_space ch = false) ->
  forall cur,
  split_from cur s
  = flush (rev (list_ascii_of_string s) ++ cur)%list.
Proof.
  induction s as [|c s IH]; intros H cur; cbn [split_from]; [reflexivity|].
  rewrite (H c) by (cbn; auto).
  rewrite IH by (intros ch Hch; apply H; cbn; auto).
  cbn [list_ascii_of_string rev]. now rewrite <- app_assoc.
Qed.

Lemma split_from_all_spaces (s : string) :
  (forall ch, In ch (list_ascii_of_string s) -> is_space ch = true) ->
  split_from [] s = [].
Proof.
  induction s as [|c s IH]; intros H; cbn [split_from]; [reflexivity|].
  rewrite (H c) by (cbn; auto). cbn [flush app].
  apply IH. intros ch Hch. apply H. cbn; auto.
Qed.

(** X15. The syllabifier is only ever called on words that are not empty
    and hold no whitespace; a string of whitespace only (the empty string
    included) gives no token, and a non-empty string without whitespace is
    passed to the syllabifier whole. *)
Theorem ordered_list_words (SonoriPy : string -> list string) (s : string) :
  ordered_list SonoriPy s = flat_map SonoriPy (split s) /\
  (forall w, In w (split s) ->
     w <> ""%string /\
     forall ch, In ch (list_ascii_of_string w) -> is_space ch = false) /\
  ((forall ch, In ch (list_ascii_of_string s) -> is_space ch = true) ->
   ordered_list SonoriPy s = []) /\
  (s <> ""%string ->
   (forall ch, In ch (list_ascii_of_string s) -> is_space ch = false) ->
   ordered_list SonoriPy s = SonoriPy s).
Proof.
  split; [apply ordered_list_flat_map|]. split; [|split].
  - intros w Hw. apply (split_from_words s []); [intros ch []|exact Hw].
  - intros H. rewrite ordered_list_flat_map. unfold split.
    now rewrite split_from_all_spaces.
  - intros Hne H. rewrite ordered_list_flat_map. unfold split.
    rewrite split_from_no_space by exact H. rewrite app_nil_r.
    destruct s as [|c s]; [contradiction|].
    cbn [list_ascii_of_string rev].
    destruct (rev (list_ascii_of_string s) ++ [c])%list eqn:E;
      [destruct (rev (list_ascii_of_string s)); discriminate|].
    cbn [flush]. rewrite <- E.
    change (rev (list_ascii_of_string s) ++ [c])%list
      with (rev (list_ascii_of_string (String c s))).
    rewrite rev_involutive, string_of_list_ascii_of_string.
    cbn [flat_map]. apply app_nil_r.
Qed.

(** An instance: a syllabifier that returns its word whole, on a word and
    on a string of two spaces. *)
Lemma ordered_list_words_witness :
  let whole := fun w : string => [w] in
  "ab"%string <> ""%string /\
  (forall ch, In ch (list_ascii_of_string "ab") -> is_space ch = false) /\
  ordered_list whole "ab" = ["ab"%string] /\
  (forall ch, In ch (list_ascii_of_string "  ") -> is_space ch = true) /\
  ordered_list whole "  " = [].
Proof.
  intros whole.
  assert (Hne : "ab"%string <> ""%string) by discriminate.
  assert (H1 : forall ch, In ch (list_ascii_of_string "ab") ->
                          is_space ch = false).
  { intros ch [<-|[<-|[]]]; reflexivity. }
  assert (H2 : forall ch, In ch (list_ascii_of_string "  ") ->
                          is_space ch = true).
  { intros ch [<-|[<-|[]]]; reflexivity. }
  split; [exact Hne|]. split; [exact H1|].
  split;
    [exact (proj2 (proj2 (proj2 (ordered_list_words whole "ab"))) Hne H1)|].
  split; [exact H2|].
  exact (proj1 (proj2 (proj2 (ordered_list_words whole "  "))) H2).
Defined.

(** * Exchanging the two strings *)

(** X18. [Doolittle.sim], [TullossS.sim] and [Dennis.sim_score] give the
    same result for [(tar, src)] as for [(src, tar)] whenever the engine
    hands over the same cardinalities with [b] and [c] exchanged. *)
Theorem formulas_symmetric (self : engine) (src tar : string) :
  self tar src
  = mk_cards (card_a (self src tar)) (card_c (self src tar))
             (card_b (self src tar)) (card_d (self src tar))
             (card_n (self src tar)) ->
  Doolittle_sim self tar src = Doolittle_sim self src tar /\
  TullossS_sim self tar src = TullossS_sim self src tar /\
  Dennis_sim_score self tar src = Dennis_sim_score self src tar.
Proof.
  intros H. unfold Doolittle_sim, TullossS_sim, Dennis_sim_score.
  unfold src_card, tar_card. rewrite H.
  cbn [card_a card_b card_c card_d card_n].
  split; [|split].
  - f_equal; ring.
  - now rewrite Rmin_comm.
  - rewrite andb_comm.
    now rewrite (Rmult_comm (IZR (card_a (self src tar)
                                  + card_c (self src tar)))).
Qed.

(** An instance: 'cat' and 'hatch' over single characters. *)
Lemma formulas_symmetric_witness :
  let self := compare characters 26 in
  self "hatch"%string "cat"%string
  = mk_cards (card_a (self "cat" "hatch")%string)
             (card_c (self "cat" "hatch")%string)
             (card_b (self "cat" "hatch")%string)
             (card_d (self "cat" "hatch")%string)
             (card_n (self "cat" "hatch")%string) /\
  TullossS_sim self "hatch" "cat" = TullossS_sim self "cat" "hatch".
Proof.
  intros self.
  assert (H : self "hatch"%string "cat"%string
              = mk_cards (card_a (self "cat" "hatch")%string)
                         (card_c (self "cat" "hatch")%string)
                         (card_b (self "cat" "hatch")%string)
                         (card_d (self "cat" "hatch")%string)
                         (card_n (self "cat" "hatch")%string))
    by reflexivity.
  split; [exact H|].
  exact (proj1 (proj2 (formulas_symmetric self "cat" "hatch" H))).
Defined.
